(** * action-events-repo: position resolver, error annotator and validation pipeline

    A shallow embedding of [src/main.ts] (two revisions of [run]) and of the
    [checkEvents] task, with the JavaScript string primitives that
    [getPosition] is written with. *)

From Stdlib Require Import ZArith List String Ascii Bool Lia Arith.
From Stdlib Require Import DecimalString Permutation.
Import ListNotations.

Local Open Scope Z_scope.
Local Set Warnings "-register-all".

(** ** JavaScript strings

    A JS string is a sequence of UTF-16 code units; [getPosition] only ever
    compares code units with the line feed. *)

Module JS.

Definition text := list N.

Definition LF : N := 10%N.

(** Code units of an ASCII literal, to write concrete texts. *)
Fixpoint js (s : string) : text :=
  match s with
  | EmptyString => []
  | String c s' => N_of_ascii c :: js s'
  end.

Definition len (t : text) : Z := Z.of_nat (List.length t).

(** [String.prototype.slice]: a negative index counts from the end, and both
    indices are clamped to [0, length]. *)
Definition sliceIndex (n i : Z) : Z :=
  if i <? 0 then Z.max (n + i) 0 else Z.min i n.

Definition slice (t : text) (s e : Z) : text :=
  let from := sliceIndex (len t) s in
  let to := sliceIndex (len t) e in
  firstn (Z.to_nat (Z.max (to - from) 0)) (skipn (Z.to_nat from) t).

(** [String.prototype.split] with a one code unit separator: the pieces
    between the occurrences of the separator; the empty string gives one
    empty piece. *)
Fixpoint split (sep : N) (t : text) : list text :=
  match t with
  | [] => [[]]
  | c :: t' =>
      if N.eqb c sep then [] :: split sep t'
      else match split sep t' with
           | p :: ps => (c :: p) :: ps
           | [] => [[c]]
           end
  end.

(** The largest index [i <= k] with [t[i] = c], or [-1]. *)
Fixpoint lastIndexFrom (t : text) (c : N) (k : nat) : Z :=
  if match nth_error t k with Some x => N.eqb x c | None => false end
  then Z.of_nat k
  else match k with
       | O => -1
       | S k' => lastIndexFrom t c k'
       end.

(** [String.prototype.lastIndexOf] with a one code unit search string: the
    position is clamped between 0 and [length - 1] before the search goes
    backwards from it. *)
Definition lastIndexOf (t : text) (c : N) (position : Z) : Z :=
  if len t <? 1 then -1
  else lastIndexFrom t c (Z.to_nat (Z.min (Z.max position 0) (len t - 1))).

End JS.

Import JS.

(** ** Position Resolver *)

Record Position := mkPosition { line : Z; column : Z }.

(** [getPosition] (the same text in the three source files). The offset is
    an integer, and the arithmetic is that of the integers, as that of
    JavaScript numbers is up to [Number.MAX_SAFE_INTEGER] in magnitude. *)
Definition getPosition (t : text) (offset : Z) : Position :=
  {| line := Z.of_nat (List.length (split LF (slice t 0 offset))) - 1;
     column := offset - lastIndexOf t LF (offset - 1) - 1 |}.

(** *** What the specification says about a position *)

(** Number of line breaks in a text. *)
Definition countBreaks (t : text) : Z :=
  Z.of_nat (count_occ N.eq_dec t LF).

(** The code unit at index [i], if any. *)
Definition charAt (t : text) (i : Z) : option N :=
  if i <? 0 then None else nth_error t (Z.to_nat i).

(** [b] is the index of the last line break strictly before [o], or [-1]
    when no line break precedes [o]. *)
Definition lastBreakBefore (t : text) (o b : Z) : Prop :=
  (b = -1 /\ forall i, 0 <= i < o -> charAt t i <> Some LF)
  \/ (0 <= b < o /\ charAt t b = Some LF
      /\ forall i, b < i < o -> charAt t i <> Some LF).

(** The same index computed from the front of the text: the last line break
    among the first [n] code units, or [-1]. *)
Fixpoint lastBreakIn (t : text) (n : nat) : Z :=
  match n, t with
  | S n', c :: t' =>
      let r := lastBreakIn t' n' in
      if 0 <=? r then r + 1 else if N.eqb c LF then 0 else -1
  | _, _ => -1
  end.

(** An offset is regular when the backward search of [lastIndexOf] starts
    where [getPosition] asks it to: every offset but 0 in a text that begins
    with a line break. *)
Definition regular (t : text) (o : Z) : Prop :=
  1 <= o \/ charAt t 0 <> Some LF.

(** Lexicographic order on positions. *)
Definition pos_le (p q : Position) : Prop :=
  line p < line q \/ (line p = line q /\ column p <= column q).

(** Lengths of the lines of a text, and the offset of a position computed
    from them: every line before [line] contributes its length and its line
    break. *)
Definition lineLengths (t : text) : list Z := map len (split LF t).

Fixpoint lineStart (lens : list Z) (l : nat) : Z :=
  match l, lens with
  | S l', n :: lens' => n + 1 + lineStart lens' l'
  | _, _ => 0
  end.

Definition offsetOf (lens : list Z) (p : Position) : Z :=
  lineStart lens (Z.to_nat (line p)) + column p.


(** ** Syntax Locator *)

(** A step of a LogicalPath: an object key or an array index. *)
Inductive Step :=
| Key (k : string)
| Index (i : Z).

(** A node of the position-aware tree: its kind, offset, length and ordered
    children (key-value pairs of an object, elements of an array). *)
Inductive SyntaxNode :=
| ObjectNode (offset length : Z) (members : list (string * SyntaxNode))
| ArrayNode (offset length : Z) (elements : list SyntaxNode)
| ValueNode (offset length : Z).

Definition nodeOffset (n : SyntaxNode) : Z :=
  match n with
  | ObjectNode o _ _ | ArrayNode o _ _ | ValueNode o _ => o
  end.

Definition nodeLength (n : SyntaxNode) : Z :=
  match n with
  | ObjectNode _ l _ | ArrayNode _ l _ | ValueNode _ l => l
  end.

(** The value of the first member whose key is [k]. *)
Fixpoint firstMember (k : string) (ms : list (string * SyntaxNode))
  : option SyntaxNode :=
  match ms with
  | [] => None
  | (k', v) :: ms' => if String.eqb k' k then Some v else firstMember k ms'
  end.

(** One step of the descent. *)
Definition stepInto (n : SyntaxNode) (s : Step) : option SyntaxNode :=
  match s, n with
  | Key k, ObjectNode _ _ ms => firstMember k ms
  | Index i, ArrayNode _ _ es =>
      if i <? 0 then None else nth_error es (Z.to_nat i)
  | _, _ => None
  end.

(** Modelled from the spec: [findNodeAtLocation] of the jsonc-parser package
    is not part of the sources. It descends the tree one step at a time: a
    string step must match an object's key exactly, the first match winning;
    an integer step indexes an array's children in order; a step that cannot
    be resolved gives null at once; the empty path gives the root. *)
Fixpoint findNodeAtLocation (root : SyntaxNode) (path : list Step)
  : option SyntaxNode :=
  match path with
  | [] => Some root
  | s :: rest =>
      match stepInto root s with
      | Some n => findNodeAtLocation n rest
      | None => None
      end
  end.

(** *** What the specification calls a resolvable step *)

(** [k] is bound to [v] by the first member of [ms] that has key [k]. *)
Inductive firstBinding (k : string) (v : SyntaxNode)
  : list (string * SyntaxNode) -> Prop :=
| firstBinding_here ms : firstBinding k v ((k, v) :: ms)
| firstBinding_later k' v' ms :
    k' <> k -> firstBinding k v ms -> firstBinding k v ((k', v') :: ms).

(** The path leads from a node to a node. *)
Inductive resolves : SyntaxNode -> list Step -> SyntaxNode -> Prop :=
| resolves_nil n : resolves n [] n
| resolves_key o l ms k v rest n :
    firstBinding k v ms -> resolves v rest n ->
    resolves (ObjectNode o l ms) (Key k :: rest) n
| resolves_index o l es i v rest n :
    0 <= i -> nth_error es (Z.to_nat i) = Some v -> resolves v rest n ->
    resolves (ArrayNode o l es) (Index i :: rest) n.

(** The step cannot be taken from the node: missing key, index out of range,
    or a step of the wrong kind for the node. *)
Inductive stepFails : SyntaxNode -> Step -> Prop :=
| fails_missing_key o l ms k :
    (forall v, ~ In (k, v) ms) -> stepFails (ObjectNode o l ms) (Key k)
| fails_out_of_range o l es i :
    i < 0 \/ Z.of_nat (List.length es) <= i ->
    stepFails (ArrayNode o l es) (Index i)
| fails_index_on_object o l ms i : stepFails (ObjectNode o l ms) (Index i)
| fails_key_on_array o l es k : stepFails (ArrayNode o l es) (Key k)
| fails_on_value o l s : stepFails (ValueNode o l) s.

(** The path has a step that cannot be resolved. *)
Definition unresolvable (root : SyntaxNode) (path : list Step) : Prop :=
  exists p s rest n,
    path = p ++ s :: rest /\ resolves root p n /\ stepFails n s.

(** ** The hosting environment *)

(** A thrown JavaScript value: an instance of [Error] with its message, or
    any other value, with what [String] makes of it. *)
Inductive Thrown :=
| ErrorObject (message : string)
| NonError (asString : string).

(** One issue of a failed schema validation. *)
Record ZodIssue := mkIssue { issue_path : list Step; issue_message : string }.

(** Result of [EventDataSchema.safeParse]. *)
Inductive SafeParseResult (EventData : Type) :=
| Success (data : EventData)
| Failure (issues : list ZodIssue).

Arguments Success {EventData} data.
Arguments Failure {EventData} issues.

(** A directory entry returned by [globSync] with [withFileTypes]. *)
Record Dirent := mkDirent {
  name : string;
  parentPath : string;
  isFile : bool;
  isDirectory : bool
}.

(** The options object of [core.error]. *)
Record AnnotationProperties := mkProps {
  file : option string;
  startLine : option Z;
  startColumn : option Z;
  endLine : option Z;
  endColumn : option Z
}.

Definition fileOnly (path : string) : AnnotationProperties :=
  mkProps (Some path) None None None None.

Definition noProperties : AnnotationProperties :=
  mkProps None None None None None.

(** A value handed to [JSON.stringify] before it is written: a directory
    listing, or the manifest with its repository and its (path, url)
    entries. *)
Inductive JSONDoc :=
| Listing (names : list string)
| Manifest (repository : string) (events : list (string * string)).

(** What the program does to the outside, in order. *)
Inductive Effect :=
| core_info (message : string)
| core_error (message : string) (properties : AnnotationProperties)
| core_setFailed (message : string)
| fs_writeFileSync (path : string) (data : JSONDoc).

(** The collaborators of the program. [None] for [JSON_parse] stands for a
    thrown [SyntaxError]; [settleOrder] is the order in which the scheduler
    completes the pending reads. *)
Record Host := mkHost {
  JSONValue : Type;
  EventData : Type;
  getInput : string -> string;
  globSync : string -> Thrown + list string;
  globSyncDirents : string -> Thrown + list Dirent;
  readFile : string -> Thrown + text;
  readdirSync : string -> Thrown + list string;
  writeFileSync : string -> JSONDoc -> option Thrown;
  join : string -> string -> string;
  JSON_parse : text -> option JSONValue;
  safeParse : JSONValue -> SafeParseResult EventData;
  parseTree : text -> option SyntaxNode;
  context_repo : Thrown + (string * string);
  settleOrder : list string -> list string
}.

Definition startsWith (s p : string) : bool := String.prefix p s.

(** Decimal rendering of a number in a template literal. *)
Definition showZ (z : Z) : string := NilZero.string_of_int (Z.to_int z).

(** [Map.prototype.set] on an insertion-ordered map: an existing key keeps
    its place and takes the new value; a new key goes last. *)
Fixpoint Map_set {V : Type} (m : list (string * V)) (k : string) (v : V)
  : list (string * V) :=
  match m with
  | [] => [(k, v)]
  | (k', v') :: m' =>
      if String.eqb k' k then (k, v) :: m' else (k', v') :: Map_set m' k v
  end.

(** ** Effects

    The state of a run: the two variables that the per-file tasks share
    ([errorCount] and the [events] map) and the effects so far. A
    computation either returns a value or throws, and changes the state. *)

Record RunState (H : Host) := mkState {
  errorCount : Z;
  events : list (string * EventData H);
  trace : list Effect
}.

Arguments mkState {H} _ _ _.
Arguments errorCount {H} _.
Arguments events {H} _.
Arguments trace {H} _.

Section Effects.

Context {H : Host}.

Definition initial : RunState H := mkState 0 [] [].

Definition M (A : Type) : Type := RunState H -> (Thrown + A) * RunState H.

Definition ret {A} (a : A) : M A := fun s => (inr a, s).

Definition throw {A} (e : Thrown) : M A := fun s => (inl e, s).

Definition bind {A B} (m : M A) (k : A -> M B) : M B :=
  fun s =>
    match m s with
    | (inr a, s') => k a s'
    | (inl e, s') => (inl e, s')
    end.

(** [try { body } catch (e) { handler }]: what the body did before it threw
    stays done. *)
Definition tryCatch {A} (body : M A) (handler : Thrown -> M A) : M A :=
  fun s =>
    match body s with
    | (inr a, s') => (inr a, s')
    | (inl e, s') => handler e s'
    end.

Definition emit (e : Effect) : M unit :=
  fun s => (inr tt, mkState (errorCount s) (events s) (trace s ++ [e])).

(** A call of a collaborator that may throw. *)
Definition call {A} (r : Thrown + A) : M A :=
  match r with
  | inl e => throw e
  | inr a => ret a
  end.

Definition info (message : string) : M unit := emit (core_info message).

Definition error (message : string) (p : AnnotationProperties) : M unit :=
  emit (core_error message p).

Definition setFailed (message : string) : M unit :=
  emit (core_setFailed message).

(** [writeFileSync]: the write is recorded when it succeeds. *)
Definition writeFile (path : string) (data : JSONDoc) : M unit :=
  match writeFileSync H path data with
  | Some e => throw e
  | None => emit (fs_writeFileSync path data)
  end.

(** [errorCount++] *)
Definition incrErrorCount : M unit :=
  fun s => (inr tt, mkState (errorCount s + 1) (events s) (trace s)).

(** [events.set(path, data)] *)
Definition eventsSet (path : string) (data : EventData H) : M unit :=
  fun s =>
    (inr tt, mkState (errorCount s) (Map_set (events s) path data) (trace s)).

Definition getErrorCount : M Z := fun s => (inr (errorCount s), s).

Definition getEvents : M (list (string * EventData H)) :=
  fun s => (inr (events s), s).

End Effects.

Arguments M H A : clear implicits.

Notation "x <- m ;; k" := (bind m (fun x => k))
  (at level 61, m at next level, right associativity).
Notation "m ;;; k" := (bind m (fun _ => k))
  (at level 61, right associativity).

(** [for (const x of xs) body] *)
Fixpoint forEach {H : Host} {A} (xs : list A) (body : A -> M H unit) : M H unit :=
  match xs with
  | [] => ret tt
  | x :: xs' => body x ;;; forEach xs' body
  end.

(** ** Error Annotator *)

(** The options of the annotation of one issue, given the node that
    [findNodeAtLocation] found ([node?.offset != null ? ... : undefined]). *)
Definition issueProperties (path : string) (content : text)
    (node : option SyntaxNode) : AnnotationProperties :=
  {| file := Some path;
     startLine :=
       match node with
       | Some n => Some (line (getPosition content (nodeOffset n)) + 1)
       | None => None
       end;
     startColumn :=
       match node with
       | Some n => Some (column (getPosition content (nodeOffset n)) + 1)
       | None => None
       end;
     endLine :=
       match node with
       | Some n =>
           Some (line (getPosition content (nodeOffset n + nodeLength n)) + 1)
       | None => None
       end;
     endColumn :=
       match node with
       | Some n =>
           Some (column (getPosition content (nodeOffset n + nodeLength n)) + 1)
       | None => None
       end |}.

(** The diagnostic of one issue. *)
Definition issueDiagnostic (path : string) (content : text)
    (json : SyntaxNode) (issue : ZodIssue) : Effect :=
  core_error (issue_message issue)
    (issueProperties path content
       (findNodeAtLocation json (issue_path issue))).

(** The annotation of the issues of a file (the same statements in [run] and
    in [SchemaValidationError.annotate]): nothing when [parseTree] gives
    null, one [core.error] per issue otherwise. *)
Definition annotateIssues {H : Host} (path : string) (content : text)
    (issues : list ZodIssue) : M H unit :=
  match parseTree H content with
  | None => ret tt
  | Some json =>
      forEach issues (fun issue => emit (issueDiagnostic path content json issue))
  end.

(** ** The [checkEvents] task *)

Module Task.

Section WithHost.

Context {H : Host}.

(** The reason of a rejected per-file task. *)
Inductive Rejection :=
| SchemaValidationError (path : string) (zodError : list ZodIssue)
    (fileContent : text)
| JSONParseError (path : string)
| Unexpected (e : Thrown).

(** The callback of [files.map]: it has no [await], so it runs to its end;
    [None] is a fulfilled promise, [Some r] one rejected with [r]. *)
Definition checkFile (dir file : string)
  : RunState H -> option Rejection * RunState H :=
  fun s =>
    if startsWith file "." then (None, s)
    else
      let path := join H dir file in
      match readFile H path with
      | inl e => (Some (Unexpected e), s)
      | inr content =>
          match JSON_parse H content with
          | None => (Some (JSONParseError path), s)
          | Some json =>
              match safeParse H json with
              | Failure zodError =>
                  (Some (SchemaValidationError path zodError content), s)
              | Success _ =>
                  (None, snd (info ("Validated event: " ++ path)%string s))
              end
          end
      end.

(** [results.filter(rejected).map(reason)] over the tasks in order. *)
Fixpoint settleAll (dir : string) (files : list string)
  : RunState H -> list Rejection * RunState H :=
  fun s =>
    match files with
    | [] => ([], s)
    | f :: files' =>
        let (r, s1) := checkFile dir f s in
        let (rs, s2) := settleAll dir files' s1 in
        (match r with Some x => x :: rs | None => rs end, s2)
    end.

(** [String(error)] or [error.message] *)
Definition describe (e : Thrown) : string :=
  match e with
  | ErrorObject m => m
  | NonError v => v
  end.

(** [error.annotate()] and the other branch of the loop over the errors. *)
Definition annotate (r : Rejection) : M H unit :=
  match r with
  | SchemaValidationError path zodError fileContent =>
      annotateIssues path fileContent zodError
  | JSONParseError path => error "Invalid JSON file!" (fileOnly path)
  | Unexpected e =>
      error ("Unexpected error: " ++ describe e)%string noProperties
  end.

Definition checkEvents (dir : string) : M H unit :=
  files <- call (globSync H dir) ;;
  errors <- (fun s => let (rs, s') := settleAll dir files s in (inr rs, s')) ;;
  forEach errors annotate ;;;
  if Z.of_nat (List.length errors) >? 0
  then setFailed ("Validation failed for "
                  ++ showZ (Z.of_nat (List.length errors)) ++ " file(s)!")%string
  else ret tt.

End WithHost.

Arguments Rejection : clear implicits.

End Task.

(** ** The per-file work of [run] after the file is read

    The [try]/[catch] around the parse and the validation, the same
    statements in both revisions of [run]. *)

Definition validateContent {H : Host} (path : string) (content : text)
  : M H unit :=
  tryCatch
    (match JSON_parse H content with
     | None => throw (ErrorObject "SyntaxError")
     | Some json =>
         match safeParse H json with
         | Failure issues =>
             incrErrorCount ;;;
             annotateIssues path content issues
         | Success data =>
             eventsSet path data ;;;
             info ("Validated event: " ++ path)%string
         end
     end)
    (fun e =>
       incrErrorCount ;;;
       error ("Failed to parse JSON in file: " ++ path)%string (fileOnly path)).

(** The continuation of a task once [readFile(path)] has settled. *)
Definition resumeTask {H : Host} (path : string) : M H unit :=
  content <- call (readFile H path) ;;
  validateContent path content.

(** The tasks run up to their [await] one after the other, inside
    [files.map]; a task that throws there gives a rejected promise and the
    next ones still start. The result lists the rejections and the paths of
    the pending reads, in the order of the files. *)
Fixpoint startAll {H : Host} (startTask : Dirent -> M H (option string))
    (files : list Dirent)
  : RunState H -> (list Thrown * list string) * RunState H :=
  fun s =>
    match files with
    | [] => (([], []), s)
    | d :: files' =>
        let (r, s1) := startTask d s in
        let '((rejected, pending), s2) := startAll startTask files' s1 in
        (match r with
         | inl e => (e :: rejected, pending)
         | inr (Some path) => (rejected, path :: pending)
         | inr None => (rejected, pending)
         end, s2)
    end.

(** [await Promise.all(files.map(...))]: a rejection of the synchronous part
    is thrown before any read completes; otherwise the reads complete in the
    scheduler's order, each continuation running to its end, and the first
    rejected one is thrown. What the other tasks do once [run] has returned
    is not part of the run: it is told by [leftBehind] and [wholeProcess]. *)
Definition awaitAll {H : Host} (startTask : Dirent -> M H (option string))
    (files : list Dirent) : M H unit :=
  fun s =>
    let '((rejected, pending), s1) := startAll startTask files s in
    match rejected with
    | e :: _ => (inl e, s1)
    | [] => forEach (settleOrder H pending) resumeTask s1
    end.

(** [core.getInput("events-path") || "./events"] *)
Definition eventsPath (H : Host) : string :=
  let p := getInput H "events-path" in
  if String.eqb p EmptyString then "./events" else p.

(** The outermost [catch] of [run]. *)
Definition topLevel {H : Host} (body : M H unit) : M H unit :=
  tryCatch body
    (fun e =>
       match e with
       | ErrorObject m => setFailed m
       | NonError _ => ret tt
       end).

(** ** [run], with the manifest (the revision that writes [.index.json]) *)

Module Action.

Section WithHost.

Context {H : Host}.

(** The callback of [files.map] up to [await readFile(path)]: [Some path]
    when the task is left waiting for the read. *)
Definition startTask (dirent : Dirent) : M H (option string) :=
  if startsWith (name dirent) "." then ret None
  else
    let path := join H (parentPath dirent) (name dirent) in
    if negb (isFile dirent) then
      (if isDirectory dirent then
         names <- call (readdirSync H path) ;;
         writeFile (join H path ".ls")
           (Listing (filter (fun x => negb (startsWith x ".")) names)) ;;;
         info ("Listed directory: " ++ path)%string
       else ret tt) ;;;
      ret None
    else ret (Some path).

Definition pagesUrlOf (owner repo : string) : string :=
  ("https://" ++ owner ++ ".github.io/" ++ repo)%string.

Definition manifestEntry (pagesUrl : string) (e : string * EventData H)
  : string * string :=
  (fst e, (pagesUrl ++ "/events/" ++ fst e)%string).

Definition body : M H unit :=
  info "@deniz-blue/action-events-repo is running" ;;;
  files <- call (globSyncDirents H (eventsPath H)) ;;
  info ("Found " ++ showZ (Z.of_nat (List.length files)) ++ " events.")%string ;;;
  awaitAll startTask files ;;;
  ctx <- call (context_repo H) ;;
  let repository := (fst ctx ++ "/" ++ snd ctx)%string in
  let pagesUrl := pagesUrlOf (fst ctx) (snd ctx) in
  info ("Repository: " ++ repository)%string ;;;
  info ("Pages URL: " ++ pagesUrl)%string ;;;
  evs <- getEvents ;;
  writeFile ".index.json"
    (Manifest repository (map (manifestEntry pagesUrl) evs)) ;;;
  n <- getErrorCount ;;
  if n >? 0
  then setFailed ("Event data validation failed for " ++ showZ n
                  ++ " event(s).")%string
  else info "Complete".

Definition run : M H unit := topLevel body.

End WithHost.

End Action.

(** ** [run] of [src/main.ts] *)

Module Main.

Section WithHost.

Context {H : Host}.

Definition startTask (dirent : Dirent) : M H (option string) :=
  let path := join H (parentPath dirent) (name dirent) in
  if negb (isFile dirent) then
    (if isDirectory dirent then
       names <- call (readdirSync H path) ;;
       writeFile ".ls" (Listing names)
     else ret tt) ;;;
    ret None
  else ret (Some path).

Definition body : M H unit :=
  info "@deniz-blue/action-events-repo is running" ;;;
  files <- call (globSyncDirents H (eventsPath H)) ;;
  info ("Found " ++ showZ (Z.of_nat (List.length files)) ++ " events.")%string ;;;
  awaitAll startTask files ;;;
  n <- getErrorCount ;;
  if n >? 0
  then setFailed ("Event data validation failed for " ++ showZ n
                  ++ " event(s).")%string
  else info "Complete".

Definition run : M H unit := topLevel body.

End WithHost.

End Main.

(** The process ends in failure when [core.setFailed] was called. *)
Definition isSetFailed (e : Effect) : bool :=
  match e with
  | core_setFailed _ => true
  | _ => false
  end.

Definition failed (tr : list Effect) : bool := existsb isSetFailed tr.

Definition isDiagnostic (e : Effect) : bool :=
  match e with
  | core_error _ _ => true
  | _ => false
  end.

(** The diagnostics among some effects. *)
Definition diagnostics (tr : list Effect) : list Effect :=
  filter isDiagnostic tr.

Definition isManifestWrite (e : Effect) : bool :=
  match e with
  | fs_writeFileSync _ (Manifest _ _) => true
  | _ => false
  end.

(** A diagnostic without a span. *)
Definition noSpan (p : AnnotationProperties) : Prop :=
  startLine p = None /\ startColumn p = None
  /\ endLine p = None /\ endColumn p = None.

(** *** Vocabulary of the statements *)

(** Every effect that a computation adds satisfies [P]. *)
Definition emits {H : Host} {A} (P : Effect -> Prop) (m : M H A) : Prop :=
  forall s, exists tr, trace (snd (m s)) = trace s ++ tr /\ Forall P tr.

(** Neither [core.setFailed] nor a write of the manifest. *)
Definition ordinary (e : Effect) : Prop :=
  isSetFailed e = false /\ isManifestWrite e = false.

(** The path that [run] gives to a directory entry. *)
Definition pathOf (H : Host) (d : Dirent) : string :=
  join H (parentPath d) (name d).

(** The entries whose task waits for a read in [run]: files that are not
    skipped. *)
Definition awaited (d : Dirent) : bool :=
  negb (startsWith (name d) ".") && isFile d.

(** The last statement of [run]: the summary of the failures, or the
    completion message. *)
Definition verdict (n : Z) : Effect :=
  if n >? 0
  then core_setFailed
         ("Event data validation failed for " ++ showZ n ++ " event(s).")%string
  else core_info "Complete".

(** The state before the tasks start: the two opening messages. *)
Definition opened {H : Host} (s : RunState H) (files : list Dirent) : RunState H :=
  mkState (errorCount s) (events s)
    (trace s
     ++ [core_info "@deniz-blue/action-events-repo is running";
         core_info ("Found " ++ showZ (Z.of_nat (List.length files))
                    ++ " events.")%string]).

(** Every effect that a computation adds before it throws satisfies [P]. *)
Definition emitsBeforeThrow {H : Host} {A} (P : Effect -> Prop) (m : M H A)
  : Prop :=
  forall s e s', m s = (inl e, s') ->
    exists tr, trace s' = trace s ++ tr /\ Forall P tr.

(** Not a call of [core.setFailed]. *)
Definition notSetFailed (e : Effect) : Prop := isSetFailed e = false.

(** The file at the path reads, parses and passes the schema. *)
Definition validPath (H : Host) (p : string) : Prop :=
  exists content json data,
    readFile H p = inr content /\ JSON_parse H content = Some json
    /\ safeParse H json = Success data.

(** The same as a test. *)
Definition validates (H : Host) (p : string) : bool :=
  match readFile H p with
  | inr content =>
      match JSON_parse H content with
      | Some json =>
          match safeParse H json with
          | Success _ => true
          | Failure _ => false
          end
      | None => false
      end
  | inl _ => false
  end.

(** The files of the walk that [run] counts as failures: awaited and not
    valid. *)
Definition failing (H : Host) (d : Dirent) : bool :=
  awaited d && negb (validates H (pathOf H d)).

(** The entry is a file that is not skipped and that validates. *)
Definition validated (H : Host) (d : Dirent) : Prop :=
  startsWith (name d) "." = false /\ isFile d = true
  /\ validPath H (pathOf H d).

(** The diagnostic that the specification asks for an issue: the span of
    the node, from its offset to its offset plus its length, in 1-indexed
    coordinates; the file alone when no node is found. *)
Definition reported (content : text) (o : Z) : Z * Z :=
  (line (getPosition content o) + 1, column (getPosition content o) + 1).

Definition locatedDiagnostic (path : string) (content : text)
    (tree : SyntaxNode) (issue : ZodIssue) : Effect :=
  match findNodeAtLocation tree (issue_path issue) with
  | Some n =>
      let (sl, sc) := reported content (nodeOffset n) in
      let (el, ec) := reported content (nodeOffset n + nodeLength n) in
      core_error (issue_message issue)
        (mkProps (Some path) (Some sl) (Some sc) (Some el) (Some ec))
  | None => core_error (issue_message issue) (fileOnly path)
  end.

(** *** A small repository

    Three event files, a hidden file and a directory: [a/b.json] validates,
    [a/broken.json] is not JSON, [a/wrong.json] is JSON with two schema
    issues. The reads complete in the reverse order of the files. *)

Module Demo.

Local Open Scope string_scope.
Local Open Scope list_scope.

Fixpoint text_eqb (a b : text) : bool :=
  match a, b with
  | [], [] => true
  | x :: a', y :: b' => N.eqb x y && text_eqb a' b'
  | _, _ => false
  end.

Definition quote : text := [34%N].

Definition okText : text := js "{}".

Definition brokenText : text := js "{".

(** An object with the key tags, a line break, and the array [1, 2, 3]. *)
Definition wrongText : text :=
  js "{" ++ quote ++ js "tags" ++ quote ++ js ":" ++ [LF] ++ js "[1, 2, 3]}".

Definition wrongTree : SyntaxNode :=
  ObjectNode 0 19
    [("tags", ArrayNode 9 9 [ValueNode 10 1; ValueNode 13 1; ValueNode 16 1])].

Definition wrongIssues : list ZodIssue :=
  [mkIssue [Key "name"] "Required";
   mkIssue [Key "tags"; Index 2] "Expected string"].

Definition entries : list Dirent :=
  [mkDirent "b.json" "a" true false;
   mkDirent "broken.json" "a" true false;
   mkDirent ".hidden.json" "a" true false;
   mkDirent "a" "." false true;
   mkDirent "wrong.json" "a" true false].

Definition host (glob : Thrown + list Dirent)
    (tree : text -> option SyntaxNode) : Host :=
  {| JSONValue := text;
     EventData := text;
     getInput := fun _ => EmptyString;
     globSync := fun _ => inr ["b.json"; "broken.json"; "wrong.json"];
     globSyncDirents := fun _ => glob;
     readFile := fun p =>
       if String.eqb p "a/b.json" then inr okText
       else if String.eqb p "a/broken.json" then inr brokenText
       else if String.eqb p "a/wrong.json" then inr wrongText
       else inl (ErrorObject "ENOENT");
     readdirSync := fun _ => inr ["b.json"; ".ls"];
     writeFileSync := fun _ _ => None;
     join := fun a b => String.append a (String.append "/" b);
     JSON_parse := fun t => if text_eqb t brokenText then None else Some t;
     safeParse := fun j =>
       if text_eqb j okText then Success j else Failure wrongIssues;
     parseTree := tree;
     context_repo := inr ("owner", "repo");
     settleOrder := @rev string |}.

(** The repository as it is, with a locator that parses. *)
Definition plain : Host := host (inr entries) (fun _ => Some wrongTree).

(** The same with a locator that gives null. *)
Definition treeless : Host := host (inr entries) (fun _ => None).

(** The same with a directory walk that throws a value that is not an
    [Error]. *)
Definition walkThrows : Host :=
  host (inl (NonError "boom")) (fun _ => Some wrongTree).

(** The walk finds a file that cannot be read, after one that can. *)
Definition goneEntries : list Dirent :=
  [mkDirent "b.json" "a" true false; mkDirent "gone.json" "a" true false].

Definition unreadable : Host :=
  host (inr goneEntries) (fun _ => Some wrongTree).

(** The walk finds nothing. *)
Definition empty : Host := host (inr []) (fun _ => Some wrongTree).

(** The walk finds a hidden file that is not JSON, beside a valid one. *)
Definition draftEntries : list Dirent :=
  [mkDirent "b.json" "a" true false; mkDirent ".draft.json" "a" true false].

Definition withDraft : Host :=
  {| JSONValue := JSONValue plain;
     EventData := EventData plain;
     getInput := getInput plain;
     globSync := fun _ => inr ["b.json"; ".draft.json"; "gone.json"];
     globSyncDirents := fun _ => inr draftEntries;
     readFile := fun p =>
       if String.eqb p "a/.draft.json" then inr brokenText
       else readFile plain p;
     readdirSync := readdirSync plain;
     writeFileSync := writeFileSync plain;
     join := join plain;
     JSON_parse := JSON_parse plain;
     safeParse := safeParse plain;
     parseTree := parseTree plain;
     context_repo := context_repo plain;
     settleOrder := settleOrder plain |}.



End Demo.

(** *** Vocabulary of the further properties *)

(** The position lies on a line of the text, at a column of that line (the
    column after the last code unit of the line included). *)
Definition onLine (t : text) (p : Position) : Prop :=
  0 <= line p < Z.of_nat (List.length (lineLengths t))
  /\ 0 <= column p <= nth (Z.to_nat (line p)) (lineLengths t) 0.

(** A diagnostic that names its file; any other effect. *)
Definition filed (e : Effect) : Prop :=
  match e with
  | core_error _ p => file p <> None
  | _ => True
  end.

(** A listing written to [.ls] under some path, without a hidden name; any
    other effect. *)
Definition tidyListing (H : Host) (e : Effect) : Prop :=
  match e with
  | fs_writeFileSync p (Listing names) =>
      (exists q, p = join H q ".ls")
      /\ Forall (fun x => startsWith x "." = false) names
  | _ => True
  end.

(** A listing written to the one file [.ls]; no manifest; any other
    effect. *)
Definition flatListing (e : Effect) : Prop :=
  match e with
  | fs_writeFileSync p (Listing _) => p = ".ls"%string
  | fs_writeFileSync _ (Manifest _ _) => False
  | _ => True
  end.

(** The files of the walk that [run] of [src/main.ts] counts as failures:
    every file that does not validate, hidden or not. *)
Definition failingFile (H : Host) (d : Dirent) : bool :=
  isFile d && negb (validates H (pathOf H d)).

(** The files that [checkEvents] rejects: not skipped and not valid. *)
Definition rejected (H : Host) (dir file : string) : bool :=
  negb (startsWith file ".") && negb (validates H (join H dir file)).

(** The reason with which the task of a file is rejected in [checkEvents],
    if it is. *)
Definition reasonOf (H : Host) (dir file : string) : option Task.Rejection :=
  fst (Task.checkFile (H := H) dir file initial).

(** The files whose task is fulfilled with a message: not skipped and
    valid. *)
Definition accepted (H : Host) (dir file : string) : bool :=
  negb (startsWith file ".") && validates H (join H dir file).

(** What [annotate] reports for a rejection. *)
Definition diagnosticsOf (H : Host) (r : Task.Rejection) : list Effect :=
  match r with
  | Task.SchemaValidationError path issues content =>
      match parseTree H content with
      | Some json => map (issueDiagnostic path content json) issues
      | None => []
      end
  | Task.JSONParseError path =>
      [core_error "Invalid JSON file!" (fileOnly path)]
  | Task.Unexpected e =>
      [core_error ("Unexpected error: " ++ Task.describe e)%string noProperties]
  end.

Definition isInfo (e : Effect) : bool :=
  match e with
  | core_info _ => true
  | _ => false
  end.

(** The reasons of the rejected tasks, in the order of the files. *)
Definition reasons (H : Host) (dir : string) (files : list string)
  : list Task.Rejection :=
  flat_map (fun f => match reasonOf H dir f with
                     | Some r => [r]
                     | None => []
                     end) files.

(** [Number.MAX_SAFE_INTEGER]: up to it, in magnitude, the arithmetic of
    JavaScript numbers on integers is the arithmetic of the integers. *)
Definition maxSafeInteger : Z := 2 ^ 53 - 1.


(** *** After [run] has resolved

    A rejection makes [await Promise.all] throw, but cancels nothing: the
    reads that were still pending complete afterwards and their continuations
    run, after the outermost handler. *)

(** The pending reads that have not completed when the first continuation
    is rejected. *)
Fixpoint unsettled {H : Host} (ps : list string) (s : RunState H)
  : list string :=
  match ps with
  | [] => []
  | p :: ps' =>
      match resumeTask p s with
      | (inl _, _) => ps'
      | (inr _, s1) => unsettled ps' s1
      end
  end.

(** The reads that are still pending when [await Promise.all] is left:
    all of them after a rejection of the synchronous part, the unsettled
    ones after a rejected continuation, none otherwise. *)
Definition leftBehind {H : Host} (startTask : Dirent -> M H (option string))
    (files : list Dirent) (s : RunState H) : list string :=
  let '((rejected, pending), s1) := startAll startTask files s in
  match rejected with
  | _ :: _ => settleOrder H pending
  | [] => unsettled (settleOrder H pending) s1
  end.

(** Their continuations, one after the other; what one of them throws is a
    rejection that nothing awaits any more. *)
Fixpoint resumeAll {H : Host} (ps : list string) (s : RunState H)
  : RunState H :=
  match ps with
  | [] => s
  | p :: ps' => resumeAll ps' (snd (resumeTask p s))
  end.

(** The state of the process when nothing is left to run: that of [run],
    then the continuations left behind. *)
Definition wholeProcess {H : Host} (run : M H unit)
    (startTask : Dirent -> M H (option string)) (s : RunState H)
  : RunState H :=
  match globSyncDirents H (eventsPath H) with
  | inl _ => snd (run s)
  | inr files =>
      resumeAll (leftBehind startTask files (opened s files)) (snd (run s))
  end.

(** What the continuation of the read of a path reports. *)
Definition diagnosticsFor (H : Host) (path : string) : list Effect :=
  match readFile H path with
  | inl _ => []
  | inr content =>
      match JSON_parse H content with
      | None =>
          [core_error ("Failed to parse JSON in file: " ++ path)%string
             (fileOnly path)]
      | Some json =>
          match safeParse H json with
          | Success _ => []
          | Failure issues =>
              match parseTree H content with
              | Some tree => map (issueDiagnostic path content tree) issues
              | None => []
              end
          end
      end
  end.

(** A diagnostic that is about an awaited entry of the walk: it names the
    path of the entry as its file and is one of the diagnostics that the
    content of that file gives; any other effect. *)
Definition aboutEntry (H : Host) (aw : Dirent -> bool) (files : list Dirent)
    (e : Effect) : Prop :=
  match e with
  | core_error _ p =>
      exists d, In d files /\ aw d = true
                /\ file p = Some (pathOf H d)
                /\ In e (diagnosticsFor H (pathOf H d))
  | _ => True
  end.

(** * Properties *)

(** ** Position Resolver *)

Section PositionFacts.

Lemma split_nonempty sep t : split sep t <> [].
Proof.
  destruct t as [|c t]; simpl; [discriminate|].
  destruct (N.eqb c sep); [discriminate|].
  destruct (split sep t); discriminate.
Qed.

Lemma split_length t :
  List.length (split LF t) = S (count_occ N.eq_dec t LF).
Proof.
  induction t as [|c t IH]; simpl; [reflexivity|].
  destruct (N.eqb_spec c LF) as [->|Hne].
  - destruct (N.eq_dec LF LF) as [_|F]; [|contradiction].
    simpl. now rewrite IH.
  - destruct (N.eq_dec c LF) as [E|_]; [contradiction|].
    destruct (split LF t) eqn:E; simpl in *; [discriminate|assumption].
Qed.

Lemma slice_prefix t o :
  0 <= o <= len t -> slice t 0 o = firstn (Z.to_nat o) t.
Proof.
  intros Ho. unfold slice, sliceIndex.
  assert (0 <= len t) by (unfold len; lia).
  replace (0 <? 0) with false by reflexivity.
  destruct (Z.ltb_spec o 0); [lia|].
  rewrite (Z.min_l 0) by lia. simpl skipn.
  f_equal. lia.
Qed.

Lemma charAt_nat t (i : nat) : charAt t (Z.of_nat i) = nth_error t i.
Proof.
  unfold charAt. destruct (Z.ltb_spec (Z.of_nat i) 0); [lia|].
  now rewrite Nat2Z.id.
Qed.

Lemma charAt_cons c t i : 0 < i -> charAt (c :: t) i = charAt t (i - 1).
Proof.
  intros Hi. unfold charAt.
  destruct (Z.ltb_spec i 0); [lia|].
  destruct (Z.ltb_spec (i - 1) 0); [lia|].
  replace (Z.to_nat i) with (S (Z.to_nat (i - 1))) by lia.
  reflexivity.
Qed.

Lemma charAt_head c t : charAt (c :: t) 0 = Some c.
Proof. reflexivity. Qed.

(** The line of [getPosition] counts the line breaks of the prefix. *)
Lemma getPosition_line t o :
  0 <= o <= len t ->
  line (getPosition t o) = countBreaks (firstn (Z.to_nat o) t).
Proof.
  intros Ho. unfold getPosition, countBreaks. simpl.
  rewrite slice_prefix by assumption.
  rewrite split_length. lia.
Qed.

Lemma lastIndexFrom_eq t c k :
  lastIndexFrom t c k
  = if match nth_error t k with Some x => N.eqb x c | None => false end
    then Z.of_nat k
    else match k with
         | O => -1
         | S k' => lastIndexFrom t c k'
         end.
Proof. destruct k; reflexivity. Qed.

Lemma isBreak_cases t k :
  (nth_error t k = Some LF
   /\ match nth_error t k with Some x => N.eqb x LF | None => false end = true)
  \/ (nth_error t k <> Some LF
      /\ match nth_error t k with Some x => N.eqb x LF | None => false end = false).
Proof.
  destruct (nth_error t k) as [x|]; [|right; split; [discriminate|reflexivity]].
  destruct (N.eqb_spec x LF) as [->|Hne]; [left|right]; split;
    congruence || reflexivity.
Qed.

(** The backward search finds the last occurrence at or before [k]. *)
Lemma lastIndexFrom_spec t k :
  (lastIndexFrom t LF k = -1
   /\ forall i, (i <= k)%nat -> nth_error t i <> Some LF)
  \/ (0 <= lastIndexFrom t LF k <= Z.of_nat k
      /\ nth_error t (Z.to_nat (lastIndexFrom t LF k)) = Some LF
      /\ forall i, (Z.to_nat (lastIndexFrom t LF k) < i <= k)%nat ->
                   nth_error t i <> Some LF).
Proof.
  induction k as [|k IH]; rewrite lastIndexFrom_eq.
  - destruct (isBreak_cases t 0) as [[Hx Hb]|[Hne Hb]]; rewrite Hb.
    + right. repeat split; try lia. exact Hx.
    + left. split; [reflexivity|]. intros i Hi.
      replace i with 0%nat by lia. exact Hne.
  - destruct (isBreak_cases t (S k)) as [[Hx Hb]|[Hne Hb]]; rewrite Hb.
    + right. rewrite Nat2Z.id. repeat split; try lia. exact Hx.
    + destruct IH as [[Hr Hall]|(Hr & Hat & Hall)].
      * left. split; [exact Hr|]. intros i Hi.
        destruct (Nat.eq_dec i (S k)) as [->|]; [exact Hne|].
        apply Hall. lia.
      * right. repeat split; try lia. { exact Hat. }
        intros i Hi.
        destruct (Nat.eq_dec i (S k)) as [->|]; [exact Hne|].
        apply Hall. lia.
Qed.

(** For an offset after the first code unit, [lastIndexOf] is the last line
    break before the offset. *)
Lemma lastIndexOf_before t o :
  1 <= o <= len t -> lastBreakBefore t o (lastIndexOf t LF (o - 1)).
Proof.
  intros Ho. unfold lastIndexOf.
  destruct (Z.ltb_spec (len t) 1); [lia|].
  rewrite Z.max_l, Z.min_l by lia.
  destruct (lastIndexFrom_spec t (Z.to_nat (o - 1))) as [[Hr Hall]|(Hr & Hat & Hall)].
  - left. split; [exact Hr|]. intros i Hi.
    unfold charAt. destruct (Z.ltb_spec i 0); [lia|]. apply Hall. lia.
  - right. repeat split; try lia.
    + unfold charAt.
      destruct (Z.ltb_spec (lastIndexFrom t LF (Z.to_nat (o - 1))) 0); [lia|].
      exact Hat.
    + intros i Hi. unfold charAt. destruct (Z.ltb_spec i 0); [lia|].
      apply Hall. lia.
Qed.

(** At offset 0 the position [-1] is clamped to 0, so that the search looks
    at the first code unit. *)
Lemma lastIndexOf_at_zero t :
  lastIndexOf t LF (0 - 1)
  = match t with
    | c :: _ => if N.eqb c LF then 0 else -1
    | [] => -1
    end.
Proof.
  unfold lastIndexOf. destruct t as [|c t]; [reflexivity|].
  destruct (Z.ltb_spec (len (c :: t)) 1) as [Hl|Hl].
  - unfold len in Hl. simpl List.length in Hl. lia.
  - replace (Z.max (0 - 1) 0) with 0 by lia.
    rewrite Z.min_l by lia. reflexivity.
Qed.

Lemma lastBreakBefore_unique t o b b' :
  lastBreakBefore t o b -> lastBreakBefore t o b' -> b = b'.
Proof.
  intros [[-> H1]|(Hb & Hat & H1)] [[-> H2]|(Hb' & Hat' & H2)].
  - reflexivity.
  - exfalso. apply (H1 b'); [lia|exact Hat'].
  - exfalso. apply (H2 b); [lia|exact Hat].
  - destruct (Z.lt_trichotomy b b') as [L|[E|L]]; [|exact E|].
    + exfalso. apply (H1 b'); [lia|exact Hat'].
    + exfalso. apply (H2 b); [lia|exact Hat].
Qed.

Lemma lastBreakIn_range t n : -1 <= lastBreakIn t n < Z.of_nat n.
Proof.
  revert t. induction n as [|n IH]; intros [|c t]; simpl; try lia.
  specialize (IH t).
  destruct (Z.leb_spec 0 (lastBreakIn t n)); [lia|].
  destruct (N.eqb c LF); lia.
Qed.

(** The index computed from the front is the last line break before the
    offset. *)
Lemma lastBreakIn_spec t n :
  lastBreakBefore t (Z.of_nat n) (lastBreakIn t n).
Proof.
  revert t. induction n as [|n IH]; intros t.
  - left. split; [now destruct t|]. intros i Hi. lia.
  - destruct t as [|c t].
    + left. split; [reflexivity|]. intros i Hi.
      unfold charAt. destruct (i <? 0); [discriminate|].
      destruct (Z.to_nat i); discriminate.
    + simpl lastBreakIn. specialize (IH t).
      pose proof (lastBreakIn_range t n) as R.
      destruct (Z.leb_spec 0 (lastBreakIn t n)) as [Hr|Hr].
      * destruct IH as [[E _]|(Hb & Hat & Hall)]; [lia|].
        right. repeat split; try lia.
        -- rewrite charAt_cons by lia.
           replace (lastBreakIn t n + 1 - 1) with (lastBreakIn t n) by lia.
           exact Hat.
        -- intros i Hi. rewrite charAt_cons by lia. apply Hall. lia.
      * destruct IH as [[E Hall]|(Hb & _)]; [|lia].
        destruct (N.eqb_spec c LF) as [->|Hne].
        -- right. repeat split; try lia.
           intros i Hi. rewrite charAt_cons by lia. apply Hall. lia.
        -- left. split; [reflexivity|]. intros i Hi.
           destruct (Z.eq_dec i 0) as [->|Hi0].
           ++ rewrite charAt_head. congruence.
           ++ rewrite charAt_cons by lia. apply Hall. lia.
Qed.

Lemma lineStart_cons_shift n lens k :
  lineStart ((n + 1) :: lens) k
  = lineStart (n :: lens) k + (if Nat.eqb k 0 then 0 else 1).
Proof. destruct k; simpl; lia. Qed.

(** The lines before the line of an offset end at its last line break. *)
Lemma lineStart_lastBreakIn t n :
  lineStart (lineLengths t) (count_occ N.eq_dec (firstn n t) LF)
  = lastBreakIn t n + 1.
Proof.
  revert t. induction n as [|n IH]; intros t.
  - replace (lastBreakIn t 0) with (-1) by now destruct t.
    simpl firstn. simpl count_occ. now destruct (lineLengths t).
  - destruct t as [|c t]; [reflexivity|].
    specialize (IH t). pose proof (lastBreakIn_range t n) as R.
    cbn [firstn lastBreakIn]. unfold lineLengths in *. cbn [split].
    destruct (N.eqb_spec c LF) as [->|Hne].
    + cbn [count_occ]. destruct (N.eq_dec LF LF) as [_|F]; [|contradiction].
      cbn [map lineStart]. rewrite IH.
      replace (len []) with 0 by reflexivity.
      destruct (Z.leb_spec 0 (lastBreakIn t n)); lia.
    + cbn [count_occ]. destruct (N.eq_dec c LF) as [E|_]; [contradiction|].
      destruct (split LF t) as [|p ps] eqn:E; [now apply split_nonempty in E|].
      cbn [map] in *.
      replace (len (c :: p)) with (len p + 1)
        by (unfold len; cbn [List.length]; lia).
      rewrite lineStart_cons_shift, IH.
      destruct (count_occ N.eq_dec (firstn n t) LF) as [|k] eqn:C.
      * cbn [lineStart] in IH. cbn [Nat.eqb].
        destruct (Z.leb_spec 0 (lastBreakIn t n)); lia.
      * cbn [Nat.eqb].
        destruct (Z.leb_spec 0 (lastBreakIn t n)) as [|Hneg]; [lia|].
        exfalso. cbn [lineStart] in IH.
        assert (0 <= len p) by (unfold len; lia).
        assert (0 <= lineStart (map len ps) k).
        { clear. revert k. induction ps as [|q ps IHp]; intros [|k];
            cbn [map lineStart]; try lia.
          specialize (IHp k). unfold len at 1. lia. }
        lia.
Qed.

Lemma count_firstn_mono (t : text) n1 n2 :
  (n1 <= n2)%nat ->
  (count_occ N.eq_dec (firstn n1 t) LF
   <= count_occ N.eq_dec (firstn n2 t) LF)%nat.
Proof.
  revert n1 n2. induction t as [|c t IH]; intros n1 n2 Hn.
  - rewrite !firstn_nil. lia.
  - destruct n1 as [|n1]; [cbn [firstn count_occ]; lia|].
    destruct n2 as [|n2]; [lia|].
    cbn [firstn count_occ]. specialize (IH n1 n2 ltac:(lia)).
    destruct (N.eq_dec c LF); lia.
Qed.

Lemma lastIndexOf_lastBreakIn t o :
  0 <= o <= len t -> regular t o ->
  lastIndexOf t LF (o - 1) = lastBreakIn t (Z.to_nat o).
Proof.
  intros Ho Hreg.
  destruct (Z.eq_dec o 0) as [->|Hne].
  - rewrite lastIndexOf_at_zero. destruct Hreg as [?|Hc]; [lia|].
    destruct t as [|c t]; [reflexivity|].
    rewrite charAt_head in Hc.
    destruct (N.eqb_spec c LF) as [->|_]; [congruence|reflexivity].
  - apply (lastBreakBefore_unique t o).
    + apply lastIndexOf_before. lia.
    + pose proof (lastBreakIn_spec t (Z.to_nat o)) as S.
      now rewrite Z2Nat.id in S by lia.
Qed.

End PositionFacts.

(** X1: away from the one irregular offset, [getPosition] is the position of
    the specification: the line counts the line breaks of [text[0:offset)] and
    the column is the distance to the last line break before the offset. *)
Theorem getPosition_regular t o :
  0 <= o <= len t -> regular t o ->
  line (getPosition t o) = countBreaks (firstn (Z.to_nat o) t)
  /\ exists b, lastBreakBefore t o b /\ column (getPosition t o) = o - b - 1.
Proof.
  intros Ho Hreg. split; [now apply getPosition_line|].
  exists (lastBreakIn t (Z.to_nat o)). split.
  - pose proof (lastBreakIn_spec t (Z.to_nat o)) as S.
    now rewrite Z2Nat.id in S by lia.
  - unfold getPosition. cbn [column].
    now rewrite lastIndexOf_lastBreakIn.
Qed.

(** X2: away from the one irregular offset, the offset is recovered from the
    position and the line lengths. *)
Theorem getPosition_roundtrip_regular t o :
  0 <= o <= len t -> regular t o ->
  offsetOf (lineLengths t) (getPosition t o) = o.
Proof.
  intros Ho Hreg. unfold offsetOf.
  rewrite getPosition_line by assumption.
  unfold countBreaks. rewrite Nat2Z.id, lineStart_lastBreakIn.
  unfold getPosition. cbn [column].
  rewrite lastIndexOf_lastBreakIn by assumption. lia.
Qed.

(** The one irregular offset. *)
Lemma getPosition_at_leading_break t :
  getPosition (LF :: t) 0 = {| line := 0; column := -1 |}.
Proof.
  unfold getPosition. rewrite lastIndexOf_at_zero.
  rewrite slice_prefix by (unfold len; lia). reflexivity.
Qed.

(** C1: at offset 0 of a text that begins with a line break, [getPosition]
    gives column -1, where the specification asks for column 0: no line break
    precedes offset 0, so that the column is [0 - (-1) - 1]. *)
Theorem getPosition_leading_break t :
  getPosition (LF :: t) 0 = {| line := 0; column := -1 |}
  /\ lastBreakBefore (LF :: t) 0 (-1)
  /\ 0 - (-1) - 1 = 0.
Proof.
  split; [apply getPosition_at_leading_break|]. split; [|reflexivity].
  left. split; [reflexivity|]. intros i Hi. lia.
Qed.

(** C2: at offset 0 of a text that begins with a line break, the offset
    rebuilt from the position and the line lengths is -1, not 0. *)
Theorem getPosition_roundtrip_leading_break t :
  offsetOf (lineLengths (LF :: t)) (getPosition (LF :: t) 0) = -1
  /\ line (getPosition (LF :: t) 0) = countBreaks (firstn 0 (LF :: t)).
Proof.
  rewrite getPosition_at_leading_break. split; [|reflexivity].
  unfold offsetOf. cbn [line column Z.to_nat].
  now destruct (lineLengths (LF :: t)).
Qed.

(** C10: [getPosition] is monotone in the offset for the lexicographic order
    of (line, column), and so the start of a located diagnostic is not after
    its end. *)
Theorem getPosition_monotone t o1 o2 :
  0 <= o1 -> o1 <= o2 -> o2 <= len t ->
  pos_le (getPosition t o1) (getPosition t o2)
  /\ forall path json issue n,
       findNodeAtLocation json (issue_path issue) = Some n ->
       nodeOffset n = o1 -> nodeOffset n + nodeLength n = o2 ->
       exists sl sc el ec,
         issueDiagnostic path t json issue
         = core_error (issue_message issue)
             (mkProps (Some path) (Some sl) (Some sc) (Some el) (Some ec))
         /\ (sl < el \/ (sl = el /\ sc <= ec)).
Proof.
  intros H1 H12 H2.
  assert (Hmono : pos_le (getPosition t o1) (getPosition t o2)).
  { unfold pos_le. rewrite !getPosition_line by lia. unfold countBreaks.
    pose proof (count_firstn_mono t (Z.to_nat o1) (Z.to_nat o2) ltac:(lia)) as Hc.
    destruct (Nat.eq_dec (count_occ N.eq_dec (firstn (Z.to_nat o1) t) LF)
                (count_occ N.eq_dec (firstn (Z.to_nat o2) t) LF)) as [E|Hne];
      [right; split; [now rewrite E|] | left; lia].
    pose proof (lineStart_lastBreakIn t (Z.to_nat o1)) as L1.
    pose proof (lineStart_lastBreakIn t (Z.to_nat o2)) as L2.
    rewrite E in L1.
    unfold getPosition. cbn [column].
    assert (Hreg : regular t o1 \/ ~ regular t o1).
    { unfold regular. destruct (Z_le_gt_dec 1 o1); [now left; left|].
      destruct t as [|c t']; [left; right; discriminate|].
      rewrite charAt_head. destruct (N.eq_dec c LF) as [->|Hc'].
      - right. intros [?|F]; [lia|now apply F].
      - left. right. congruence. }
    destruct Hreg as [R1|R1].
    - assert (R2 : regular t o2) by (destruct R1; [left; lia|now right]).
      rewrite !lastIndexOf_lastBreakIn by (assumption || lia). lia.
    - assert (o1 = 0) by (unfold regular in R1; lia). subst o1.
      destruct t as [|c t'].
      { exfalso. apply R1. right. discriminate. }
      assert (c = LF).
      { destruct (N.eq_dec c LF) as [|Hc']; [assumption|].
        exfalso. apply R1. right. rewrite charAt_head. congruence. }
      subst c.
      destruct (Z.eq_dec o2 0) as [->|Hpos]; [lia|].
      exfalso. replace (Z.to_nat o2) with (S (Z.to_nat (o2 - 1))) in E by lia.
      cbn [Z.to_nat firstn count_occ] in E.
      destruct (N.eq_dec LF LF) as [_|F]; [|contradiction].
      discriminate. }
  split; [exact Hmono|].
  intros path json issue n Hn Ho1 Ho2.
  unfold issueDiagnostic, issueProperties. rewrite Hn, Ho2, Ho1.
  do 4 eexists. split; [reflexivity|].
  unfold pos_le in Hmono. lia.
Qed.

Lemma getPosition_monotone_witness :
  pos_le (getPosition Demo.wrongText 16) (getPosition Demo.wrongText 17)
  /\ pos_le (getPosition [LF; 97%N] 0) (getPosition [LF; 97%N] 2).
Proof.
  split.
  - apply (getPosition_monotone Demo.wrongText 16 17); unfold len; simpl; lia.
  - apply (getPosition_monotone [LF; 97%N] 0 2); unfold len; simpl; lia.
Defined.

(** ** Syntax Locator *)

Section LocatorFacts.

Lemma firstBinding_firstMember k v ms :
  firstBinding k v ms -> firstMember k ms = Some v.
Proof.
  induction 1 as [ms|k' v' ms Hne _ IH]; cbn [firstMember].
  - now rewrite String.eqb_refl.
  - apply String.eqb_neq in Hne. now rewrite Hne.
Qed.

Lemma firstMember_missing k ms :
  (forall v, ~ In (k, v) ms) -> firstMember k ms = None.
Proof.
  induction ms as [|[k' v'] ms IH]; intros Hno; cbn [firstMember].
  - reflexivity.
  - destruct (String.eqb_spec k' k) as [->|_].
    + exfalso. apply (Hno v'). now left.
    + apply IH. intros v Hin. apply (Hno v). now right.
Qed.

Lemma stepFails_stepInto n s : stepFails n s -> stepInto n s = None.
Proof.
  destruct 1 as [o l ms k Hno|o l es i Hi|o l ms i|o l es k|o l s];
    cbn [stepInto].
  - now apply firstMember_missing.
  - destruct (Z.ltb_spec i 0); [reflexivity|].
    apply nth_error_None. lia.
  - reflexivity.
  - reflexivity.
  - now destruct s.
Qed.

(** A path that resolves is followed by the locator. *)
Lemma resolves_find root p n rest :
  resolves root p n ->
  findNodeAtLocation root (p ++ rest) = findNodeAtLocation n rest.
Proof.
  induction 1 as [n|o l ms k v p n Hb _ IH|o l es i v p n Hi Hv _ IH].
  - reflexivity.
  - cbn [app findNodeAtLocation stepInto].
    now rewrite (firstBinding_firstMember _ _ _ Hb).
  - cbn [app findNodeAtLocation stepInto].
    destruct (Z.ltb_spec i 0); [lia|]. now rewrite Hv.
Qed.

Lemma unresolvable_find root path :
  unresolvable root path -> findNodeAtLocation root path = None.
Proof.
  intros (p & s & rest & n & -> & Hres & Hfail).
  rewrite (resolves_find _ _ _ _ Hres). cbn [findNodeAtLocation].
  now rewrite (stepFails_stepInto _ _ Hfail).
Qed.

(** The locator follows exactly the paths that resolve. *)
Lemma find_resolves root path n :
  findNodeAtLocation root path = Some n -> resolves root path n.
Proof.
  revert root. induction path as [|s rest IH]; intros root Hf.
  - cbn in Hf. injection Hf as ->. constructor.
  - cbn [findNodeAtLocation] in Hf.
    destruct (stepInto root s) as [v|] eqn:Hs; [|discriminate].
    specialize (IH _ Hf).
    destruct s as [k|i], root as [o l ms|o l es|o l]; cbn [stepInto] in Hs;
      try discriminate.
    + apply resolves_key with (v := v); [|exact IH].
      clear -Hs. induction ms as [|[k' v'] ms IHm]; [discriminate|].
      cbn [firstMember] in Hs.
      destruct (String.eqb_spec k' k) as [->|Hne].
      * injection Hs as ->. constructor.
      * constructor; auto.
    + destruct (Z.ltb_spec i 0); [discriminate|].
      now apply resolves_index with (v := v).
Qed.

End LocatorFacts.

(** ** Effects of the annotator *)

Section AnnotatorFacts.

Context {H : Host}.

Lemma forEach_emit {A} (f : A -> Effect) xs (s : RunState H) :
  forEach xs (fun x => emit (f x)) s
  = (inr tt, mkState (errorCount s) (events s) (trace s ++ map f xs)).
Proof.
  revert s. induction xs as [|x xs IH]; intros s; cbn [forEach map].
  - unfold ret. rewrite app_nil_r. now destruct s.
  - unfold bind, emit at 1. rewrite IH. cbn [errorCount events trace].
    now rewrite <- app_assoc.
Qed.

Lemma annotateIssues_tree path content issues json (s : RunState H) :
  parseTree H content = Some json ->
  annotateIssues path content issues s
  = (inr tt,
     mkState (errorCount s) (events s)
       (trace s ++ map (issueDiagnostic path content json) issues)).
Proof.
  intros Hp. unfold annotateIssues. rewrite Hp. apply forEach_emit.
Qed.

Lemma annotateIssues_null path content issues (s : RunState H) :
  parseTree H content = None ->
  annotateIssues path content issues s = (inr tt, s).
Proof. intros Hp. unfold annotateIssues. now rewrite Hp. Qed.

Lemma validateContent_schema_failure path content json issues (s : RunState H) :
  JSON_parse H content = Some json ->
  safeParse H json = Failure issues ->
  validateContent path content s
  = annotateIssues path content issues
      (mkState (errorCount s + 1) (events s) (trace s)).
Proof.
  intros Hj Hv. unfold validateContent, tryCatch. rewrite Hj, Hv.
  unfold bind, incrErrorCount.
  unfold annotateIssues. destruct (parseTree H content) as [tree|].
  - now rewrite forEach_emit.
  - reflexivity.
Qed.

Lemma validateContent_parse_failure path content (s : RunState H) :
  JSON_parse H content = None ->
  validateContent path content s
  = (inr tt,
     mkState (errorCount s + 1) (events s)
       (trace s ++ [core_error ("Failed to parse JSON in file: " ++ path)%string
                      (fileOnly path)])).
Proof.
  intros Hj. unfold validateContent, tryCatch. now rewrite Hj.
Qed.

Lemma validateContent_success path content json data (s : RunState H) :
  JSON_parse H content = Some json ->
  safeParse H json = Success data ->
  validateContent path content s
  = (inr tt,
     mkState (errorCount s) (Map_set (events s) path data)
       (trace s ++ [core_info ("Validated event: " ++ path)%string])).
Proof.
  intros Hj Hv. unfold validateContent, tryCatch. now rewrite Hj, Hv.
Qed.

End AnnotatorFacts.

Local Open Scope string_scope.
Local Open Scope list_scope.

(** ** Runs of the small repository *)

Example demo_wrong_position :
  getPosition Demo.wrongText 16 = {| line := 1; column := 7 |}.
Proof. reflexivity. Qed.

Example demo_run_trace :
  trace (snd (Action.run (H := Demo.plain) initial))
  = [core_info "@deniz-blue/action-events-repo is running";
     core_info "Found 5 events.";
     fs_writeFileSync "./a/.ls" (Listing ["b.json"]);
     core_info "Listed directory: ./a";
     core_error "Required" (fileOnly "a/wrong.json");
     core_error "Expected string"
       (mkProps (Some "a/wrong.json") (Some 2) (Some 8) (Some 2) (Some 9));
     core_error "Failed to parse JSON in file: a/broken.json"
       (fileOnly "a/broken.json");
     core_info "Validated event: a/b.json";
     core_info "Repository: owner/repo";
     core_info "Pages URL: https://owner.github.io/repo";
     fs_writeFileSync ".index.json"
       (Manifest "owner/repo"
          [("a/b.json", "https://owner.github.io/repo/events/a/b.json")]);
     core_setFailed "Event data validation failed for 2 event(s)."].
Proof. vm_compute. reflexivity. Qed.

(** ** The diagnostics of a file *)

Lemma issueDiagnostic_located path content tree issue :
  issueDiagnostic path content tree issue
  = locatedDiagnostic path content tree issue.
Proof.
  unfold issueDiagnostic, locatedDiagnostic, issueProperties, reported, fileOnly.
  now destruct (findNodeAtLocation tree (issue_path issue)).
Qed.

Lemma resumeTask_read {H : Host} path content (s : RunState H) :
  readFile H path = inr content ->
  resumeTask path s = validateContent path content s.
Proof. intros Hr. unfold resumeTask, bind, call. now rewrite Hr. Qed.

(** C3: a path with a step that cannot be resolved is not located, and the
    issue at that path is reported with its message and the file, without a
    span, between the diagnostics of the issues before and after it. *)
Theorem unresolvable_path_degrades {H : Host} root path :
  unresolvable root path ->
  findNodeAtLocation root path = None
  /\ forall file content before issue after (s : RunState H),
       parseTree H content = Some root ->
       issue_path issue = path ->
       annotateIssues file content (before ++ issue :: after) s
       = (inr tt,
          mkState (errorCount s) (events s)
            (trace s
             ++ map (issueDiagnostic file content root) before
             ++ core_error (issue_message issue) (fileOnly file)
             :: map (issueDiagnostic file content root) after))
       /\ noSpan (fileOnly file).
Proof.
  intros Hun. pose proof (unresolvable_find _ _ Hun) as Hnone.
  split; [exact Hnone|].
  intros file content before issue after s Hp Hpath. split.
  - rewrite (annotateIssues_tree _ _ _ _ _ Hp), map_app. cbn [map].
    unfold issueDiagnostic at 2. rewrite Hpath, Hnone. reflexivity.
  - repeat split.
Qed.

Lemma unresolvable_path_degrades_witness :
  findNodeAtLocation Demo.wrongTree [Key "name"] = None
  /\ findNodeAtLocation Demo.wrongTree [Key "tags"; Index 3] = None.
Proof.
  split.
  - apply (unresolvable_path_degrades (H := Demo.plain)).
    exists [], (Key "name"), [], Demo.wrongTree.
    split; [reflexivity|]. split; [constructor|].
    apply fails_missing_key. intros v [E|[]]. discriminate.
  - apply (unresolvable_path_degrades (H := Demo.plain)).
    exists [Key "tags"], (Index 3), [],
      (ArrayNode 9 9 [ValueNode 10 1; ValueNode 13 1; ValueNode 16 1]).
    split; [reflexivity|]. split.
    + apply resolves_key with
        (v := ArrayNode 9 9 [ValueNode 10 1; ValueNode 13 1; ValueNode 16 1]);
        constructor.
    + apply fails_out_of_range. right. simpl. lia.
Defined.

(** C4, as the code has it: a file that is read and whose text is not JSON
    counts once and gets one diagnostic with the file and no span; the
    message is the fixed one in [checkEvents], and names the path in
    [run]. *)
Theorem parse_failure_diagnostic {H : Host} path content (s : RunState H) :
  readFile H path = inr content ->
  JSON_parse H content = None ->
  resumeTask path s
  = (inr tt,
     mkState (errorCount s + 1) (events s)
       (trace s ++ [core_error ("Failed to parse JSON in file: " ++ path)%string
                      (fileOnly path)]))
  /\ (forall dir file,
        join H dir file = path -> startsWith file "." = false ->
        Task.settleAll dir [file] s = ([Task.JSONParseError path], s)
        /\ Task.annotate (Task.JSONParseError path) s
           = (inr tt,
              mkState (errorCount s) (events s)
                (trace s ++ [core_error "Invalid JSON file!" (fileOnly path)])))
  /\ noSpan (fileOnly path).
Proof.
  intros Hr Hj. split; [|split].
  - rewrite (resumeTask_read _ _ _ Hr).
    now apply validateContent_parse_failure.
  - intros dir file Hpath Hvis. split; [|reflexivity].
    cbn [Task.settleAll]. unfold Task.checkFile.
    now rewrite Hvis, Hpath, Hr, Hj.
  - repeat split.
Qed.

Lemma parse_failure_diagnostic_witness :
  resumeTask (H := Demo.plain) "a/broken.json" initial
  = (inr tt,
     mkState 1 []
       [core_error "Failed to parse JSON in file: a/broken.json"
          (fileOnly "a/broken.json")]).
Proof.
  apply (parse_failure_diagnostic (H := Demo.plain) "a/broken.json"
           Demo.brokenText initial); reflexivity.
Defined.

(** C4, as stated, fails on [run]: the one diagnostic of a file that is not
    JSON does not carry the fixed message. *)
Lemma run_parse_failure_message :
  diagnostics
    (trace (snd (resumeTask (H := Demo.plain) "a/broken.json" initial)))
  = [core_error "Failed to parse JSON in file: a/broken.json"
       (fileOnly "a/broken.json")]
  /\ ~ In (core_error "Invalid JSON file!" (fileOnly "a/broken.json"))
         (trace (snd (Action.run (H := Demo.plain) initial)))
  /\ ~ In (core_error "Invalid JSON file!" (fileOnly "a/broken.json"))
         (trace (snd (Main.run (H := Demo.plain) initial))).
Proof.
  split; [reflexivity|]. split.
  - vm_compute. intuition discriminate.
  - vm_compute. intuition discriminate.
Qed.

(** C5: a file that parses and fails the schema with some issues counts
    once and gets one diagnostic per issue, located at the node of the
    issue's path when there is one. *)
Theorem schema_failure_diagnostics {H : Host} path content json issues tree
    (s : RunState H) :
  readFile H path = inr content ->
  JSON_parse H content = Some json ->
  safeParse H json = Failure issues ->
  parseTree H content = Some tree ->
  resumeTask path s
  = (inr tt,
     mkState (errorCount s + 1) (events s)
       (trace s ++ map (locatedDiagnostic path content tree) issues))
  /\ List.length (map (locatedDiagnostic path content tree) issues)
     = List.length issues
  /\ forall dir file,
       join H dir file = path -> startsWith file "." = false ->
       Task.settleAll dir [file] s
       = ([Task.SchemaValidationError path issues content], s)
       /\ Task.annotate (Task.SchemaValidationError path issues content) s
          = (inr tt,
             mkState (errorCount s) (events s)
               (trace s ++ map (locatedDiagnostic path content tree) issues)).
Proof.
  intros Hr Hj Hv Hp.
  assert (Hmap : map (issueDiagnostic path content tree) issues
                 = map (locatedDiagnostic path content tree) issues).
  { apply map_ext. intros i. apply issueDiagnostic_located. }
  split; [|split].
  - rewrite (resumeTask_read _ _ _ Hr).
    rewrite (validateContent_schema_failure _ _ _ _ _ Hj Hv).
    rewrite (annotateIssues_tree _ _ _ _ _ Hp). cbn [errorCount events trace].
    now rewrite Hmap.
  - apply length_map.
  - intros dir file Hpath Hvis. split.
    + cbn [Task.settleAll]. unfold Task.checkFile.
      now rewrite Hvis, Hpath, Hr, Hj, Hv.
    + cbn [Task.annotate].
      rewrite (annotateIssues_tree _ _ _ _ _ Hp). now rewrite Hmap.
Qed.

Lemma schema_failure_diagnostics_witness :
  resumeTask (H := Demo.plain) "a/wrong.json" initial
  = (inr tt,
     mkState 1 []
       [core_error "Required" (fileOnly "a/wrong.json");
        core_error "Expected string"
          (mkProps (Some "a/wrong.json") (Some 2) (Some 8) (Some 2) (Some 9))]).
Proof.
  apply (schema_failure_diagnostics (H := Demo.plain) "a/wrong.json"
           Demo.wrongText Demo.wrongText Demo.wrongIssues Demo.wrongTree
           initial); reflexivity.
Defined.

(** C6, as the code has it: when [parseTree] gives null for a file with
    schema issues, the file still counts once and none of its issues is
    reported. *)
Theorem null_tree_reports_nothing {H : Host} path content json issues
    (s : RunState H) :
  readFile H path = inr content ->
  JSON_parse H content = Some json ->
  safeParse H json = Failure issues ->
  parseTree H content = None ->
  resumeTask path s
  = (inr tt, mkState (errorCount s + 1) (events s) (trace s))
  /\ Task.annotate (Task.SchemaValidationError path issues content) s
     = (inr tt, s).
Proof.
  intros Hr Hj Hv Hp. split.
  - rewrite (resumeTask_read _ _ _ Hr).
    rewrite (validateContent_schema_failure _ _ _ _ _ Hj Hv).
    now rewrite (annotateIssues_null _ _ _ _ Hp).
  - cbn [Task.annotate]. now apply annotateIssues_null.
Qed.

Lemma null_tree_reports_nothing_witness :
  resumeTask (H := Demo.treeless) "a/wrong.json" initial
  = (inr tt, mkState 1 [] []).
Proof.
  apply (null_tree_reports_nothing (H := Demo.treeless) "a/wrong.json"
           Demo.wrongText Demo.wrongText Demo.wrongIssues initial);
    reflexivity.
Defined.

(** C6, as stated, fails: with a null tree the two issues of the file are
    dropped, on both paths. *)
Lemma null_tree_drops_issues :
  safeParse Demo.treeless Demo.wrongText = Failure Demo.wrongIssues
  /\ parseTree Demo.treeless Demo.wrongText = None
  /\ diagnostics
       (trace (snd (resumeTask (H := Demo.treeless) "a/wrong.json" initial)))
     = []
  /\ diagnostics
       (trace (snd (Task.annotate (H := Demo.treeless)
                      (Task.SchemaValidationError "a/wrong.json"
                         Demo.wrongIssues Demo.wrongText) initial)))
     = [].
Proof. repeat split. Qed.

(** ** What the computations add to the trace *)

Section TraceFacts.

Context {H : Host}.

Variable P : Effect -> Prop.

Lemma emits_ret {A} (a : A) : emits (H := H) P (ret a).
Proof. intros s. exists []. cbn. now rewrite app_nil_r. Qed.

Lemma emits_throw {A} e : emits (H := H) P (@throw H A e).
Proof. intros s. exists []. cbn. now rewrite app_nil_r. Qed.

Lemma emits_bind {A B} (m : M H A) (k : A -> M H B) :
  emits P m -> (forall a, emits P (k a)) -> emits P (bind m k).
Proof.
  intros Hm Hk s. unfold bind. destruct (Hm s) as (tr1 & E1 & F1).
  destruct (m s) as [[e|a] s1]; cbn [snd] in *.
  - now exists tr1.
  - destruct (Hk a s1) as (tr2 & E2 & F2).
    exists (tr1 ++ tr2). rewrite E2, E1, app_assoc. split; [reflexivity|].
    now apply Forall_app.
Qed.

Lemma emits_tryCatch {A} (m : M H A) (h : Thrown -> M H A) :
  emits P m -> (forall e, emits P (h e)) -> emits P (tryCatch m h).
Proof.
  intros Hm Hh s. unfold tryCatch. destruct (Hm s) as (tr1 & E1 & F1).
  destruct (m s) as [[e|a] s1]; cbn [snd] in *.
  - destruct (Hh e s1) as (tr2 & E2 & F2).
    exists (tr1 ++ tr2). rewrite E2, E1, app_assoc. split; [reflexivity|].
    now apply Forall_app.
  - now exists tr1.
Qed.

Lemma emits_emit e : P e -> emits (H := H) P (emit e).
Proof. intros He s. exists [e]. cbn. split; [reflexivity|]. now constructor. Qed.

Lemma emits_call {A} (r : Thrown + A) : emits (H := H) P (call r).
Proof. destruct r; [apply emits_throw|apply emits_ret]. Qed.

Lemma emits_writeFile path data :
  P (fs_writeFileSync path data) -> emits (H := H) P (writeFile path data).
Proof.
  intros Hw. unfold writeFile.
  destruct (writeFileSync H path data); [apply emits_throw|now apply emits_emit].
Qed.

Lemma emits_silent {A} (m : M H A) :
  (forall s, trace (snd (m s)) = trace s) -> emits P m.
Proof. intros Hm s. exists []. now rewrite Hm, app_nil_r. Qed.

Lemma emits_forEach {A} (xs : list A) (f : A -> M H unit) :
  (forall x, emits P (f x)) -> emits P (forEach xs f).
Proof.
  intros Hf. induction xs as [|x xs IH]; cbn [forEach].
  - apply emits_ret.
  - apply emits_bind; [apply Hf|intros _; exact IH].
Qed.

Hypothesis P_info : forall m, P (core_info m).
Hypothesis P_error : forall m p, P (core_error m p).

Lemma emits_annotateIssues path content issues :
  emits (H := H) P (annotateIssues path content issues).
Proof.
  unfold annotateIssues. destruct (parseTree H content); [|apply emits_ret].
  apply emits_forEach. intros i. apply emits_emit. apply P_error.
Qed.

Lemma emits_validateContent path content :
  emits (H := H) P (validateContent path content).
Proof.
  unfold validateContent. apply emits_tryCatch.
  - destruct (JSON_parse H content) as [j|]; [|apply emits_throw].
    destruct (safeParse H j).
    + apply emits_bind; [now apply emits_silent|intros _].
      apply emits_emit, P_info.
    + apply emits_bind; [now apply emits_silent|intros _].
      apply emits_annotateIssues.
  - intros e. apply emits_bind; [now apply emits_silent|intros _].
    apply emits_emit, P_error.
Qed.

Lemma emits_resumeTask path : emits (H := H) P (resumeTask path).
Proof.
  unfold resumeTask. apply emits_bind; [apply emits_call|].
  intros content. apply emits_validateContent.
Qed.

Lemma startAll_trace (startTask : Dirent -> M H (option string)) files :
  (forall d, emits P (startTask d)) ->
  forall s, exists tr,
    trace (snd (startAll startTask files s)) = trace s ++ tr /\ Forall P tr.
Proof.
  intros Hst. induction files as [|d files IH]; intros s; cbn [startAll].
  - exists []. cbn. now rewrite app_nil_r.
  - destruct (Hst d s) as (tr1 & E1 & F1).
    destruct (startTask d s) as [r s1]. cbn [snd] in E1.
    destruct (IH s1) as (tr2 & E2 & F2).
    destruct (startAll startTask files s1) as [[rej pend] s2]. cbn [snd] in *.
    exists (tr1 ++ tr2). rewrite E2, E1, app_assoc. split; [reflexivity|].
    now apply Forall_app.
Qed.

Lemma emits_awaitAll (startTask : Dirent -> M H (option string)) files :
  (forall d, emits P (startTask d)) -> emits P (awaitAll startTask files).
Proof.
  intros Hst s. unfold awaitAll.
  destruct (startAll_trace startTask files Hst s) as (tr1 & E1 & F1).
  destruct (startAll startTask files s) as [[rej pend] s1]. cbn [snd] in E1.
  destruct rej as [|e rej]; cbn [snd].
  - destruct (emits_forEach (settleOrder H pend) resumeTask emits_resumeTask s1)
      as (tr2 & E2 & F2).
    exists (tr1 ++ tr2). rewrite E2, E1, app_assoc. split; [reflexivity|].
    now apply Forall_app.
  - now exists tr1.
Qed.

Hypothesis P_listing : forall path names, P (fs_writeFileSync path (Listing names)).

Lemma emits_Action_startTask d : emits (H := H) P (Action.startTask d).
Proof.
  unfold Action.startTask.
  destruct (startsWith (name d) "."); [apply emits_ret|].
  destruct (negb (isFile d)); [|apply emits_ret].
  apply emits_bind; [|intros _; apply emits_ret].
  destruct (isDirectory d); [|apply emits_ret].
  apply emits_bind; [apply emits_call|intros names].
  apply emits_bind; [apply emits_writeFile, P_listing|intros _].
  apply emits_emit, P_info.
Qed.

Lemma emits_Main_startTask d : emits (H := H) P (Main.startTask d).
Proof.
  unfold Main.startTask.
  destruct (negb (isFile d)); [|apply emits_ret].
  apply emits_bind; [|intros _; apply emits_ret].
  destruct (isDirectory d); [|apply emits_ret].
  apply emits_bind; [apply emits_call|intros names].
  apply emits_writeFile, P_listing.
Qed.

End TraceFacts.

Lemma ordinary_info m : ordinary (core_info m).
Proof. now split. Qed.

Lemma ordinary_error m p : ordinary (core_error m p).
Proof. now split. Qed.

Lemma ordinary_listing path names : ordinary (fs_writeFileSync path (Listing names)).
Proof. now split. Qed.

Lemma failed_app tr1 tr2 : failed (tr1 ++ tr2) = failed tr1 || failed tr2.
Proof. apply existsb_app. Qed.

Lemma ordinary_not_failed tr : Forall ordinary tr -> failed tr = false.
Proof.
  induction 1 as [|e tr [He _] _ IH]; [reflexivity|].
  cbn. now rewrite He.
Qed.

Lemma ordinary_no_manifest tr :
  Forall ordinary tr -> Forall (fun e => isManifestWrite e = false) tr.
Proof. apply Forall_impl. now intros e [_ He]. Qed.

(** ** The end of a run *)

Section RunFacts.

Context {H : Host}.

Lemma emit_verdict n (s : RunState H) :
  (if n >? 0
   then setFailed ("Event data validation failed for " ++ showZ n
                   ++ " event(s).")%string
   else info "Complete") s
  = (inr tt, mkState (errorCount s) (events s) (trace s ++ [verdict n])).
Proof. unfold verdict. now destruct (n >? 0). Qed.

(** A run of [Main.body] that does not throw. *)
Lemma Main_body_returns (s s' : RunState H) :
  Main.body s = (inr tt, s') ->
  exists files s2,
    globSyncDirents H (eventsPath H) = inr files
    /\ awaitAll Main.startTask files (opened s files) = (inr tt, s2)
    /\ s' = mkState (errorCount s2) (events s2)
              (trace s2 ++ [verdict (errorCount s2)]).
Proof.
  unfold Main.body, bind, info, emit at 1, call. cbn [errorCount events trace].
  destruct (globSyncDirents H (eventsPath H)) as [e|files]; [discriminate|].
  cbn [ret]. unfold emit at 1. cbn [errorCount events trace].
  rewrite <- app_assoc. cbn [app]. fold (opened s files).
  destruct (awaitAll Main.startTask files (opened s files)) as [[e|[]] s2]
    eqn:Ha; [discriminate|].
  unfold getErrorCount. rewrite emit_verdict. intros E.
  injection E as <-. now exists files, s2.
Qed.

(** A run of [Action.body] that does not throw. *)
Lemma Action_body_returns (s s' : RunState H) :
  Action.body s = (inr tt, s') ->
  exists files s2 ctx,
    globSyncDirents H (eventsPath H) = inr files
    /\ awaitAll Action.startTask files (opened s files) = (inr tt, s2)
    /\ context_repo H = inr ctx
    /\ s' = mkState (errorCount s2) (events s2)
              (trace s2
               ++ [core_info ("Repository: " ++ fst ctx ++ "/" ++ snd ctx)%string;
                   core_info ("Pages URL: "
                              ++ Action.pagesUrlOf (fst ctx) (snd ctx))%string;
                   fs_writeFileSync ".index.json"
                     (Manifest (fst ctx ++ "/" ++ snd ctx)%string
                        (map (Action.manifestEntry
                                (Action.pagesUrlOf (fst ctx) (snd ctx)))
                           (events s2)));
                   verdict (errorCount s2)]).
Proof.
  unfold Action.body, bind, info, emit at 1, call. cbn [errorCount events trace].
  destruct (globSyncDirents H (eventsPath H)) as [e|files]; [discriminate|].
  cbn [ret]. unfold emit at 1. cbn [errorCount events trace].
  rewrite <- app_assoc. cbn [app]. fold (opened s files).
  destruct (awaitAll Action.startTask files (opened s files)) as [[e|[]] s2]
    eqn:Ha; [discriminate|].
  destruct (context_repo H) as [e|ctx]; [discriminate|].
  cbn [throw ret]. unfold emit, getEvents, writeFile.
  cbn [errorCount events trace].
  destruct (writeFileSync H ".index.json" _) as [e|]; [discriminate|].
  unfold emit, getErrorCount. cbn [errorCount events trace].
  rewrite emit_verdict. cbn [errorCount events trace]. intros E.
  injection E as <-. exists files, s2, ctx.
  split; [reflexivity|]. split; [exact Ha|]. split; [reflexivity|].
  f_equal. rewrite <- !app_assoc. reflexivity.
Qed.

Lemma failed_verdict n : failed [verdict n] = (n >? 0).
Proof. unfold verdict. now destruct (n >? 0). Qed.

Lemma awaitAll_ordinary startTask files (s s2 : RunState H) r :
  (forall d, emits ordinary (startTask d)) ->
  awaitAll startTask files s = (r, s2) ->
  exists tr, trace s2 = trace s ++ tr /\ Forall ordinary tr.
Proof.
  intros Hst E.
  destruct (emits_awaitAll ordinary ordinary_info ordinary_error
              startTask files Hst s) as (tr & Etr & F).
  rewrite E in Etr. now exists tr.
Qed.

End RunFacts.

(** When the body of [run] ends without an exception, [core.setFailed]
    has been called if and only if [errorCount] is positive; it is then the
    last call, with the summary that names the count; otherwise the last
    call is the completion message. *)
Theorem run_verdict {H : Host} (body : M H unit) (s s' : RunState H) :
  body = Action.body \/ body = Main.body ->
  failed (trace s) = false ->
  body s = (inr tt, s') ->
  topLevel body s = (inr tt, s')
  /\ (failed (trace s') = true <-> 0 < errorCount s')
  /\ exists tr,
       failed tr = false
       /\ trace s'
          = tr ++ [if errorCount s' >? 0
                   then core_setFailed
                          ("Event data validation failed for "
                           ++ showZ (errorCount s') ++ " event(s).")%string
                   else core_info "Complete"].
Proof.
  intros Hbody Hs Hrun.
  split; [unfold topLevel, tryCatch; now rewrite Hrun|].
  assert (Hshape : exists tr, failed tr = false
                     /\ trace s' = tr ++ [verdict (errorCount s')]).
  { destruct Hbody as [-> | ->].
    - apply Action_body_returns in Hrun.
      destruct Hrun as (files & s2 & ctx & _ & Hawait & _ & ->).
      apply awaitAll_ordinary in Hawait;
        [|intros d; apply emits_Action_startTask;
          auto using ordinary_info, ordinary_listing].
      destruct Hawait as (tr & Etr & F). cbn [trace errorCount].
      assert (Hsplit : forall (l : list Effect) a b c d,
                 l ++ [a; b; c; d] = (l ++ [a; b; c]) ++ [d])
        by (intros; now rewrite <- app_assoc).
      rewrite Hsplit. eexists. split; [|reflexivity].
      rewrite Etr. cbn [trace opened]. rewrite !failed_app, Hs.
      rewrite (ordinary_not_failed _ F). reflexivity.
    - apply Main_body_returns in Hrun.
      destruct Hrun as (files & s2 & _ & Hawait & ->).
      apply awaitAll_ordinary in Hawait;
        [|intros d; apply emits_Main_startTask;
          auto using ordinary_info, ordinary_listing].
      destruct Hawait as (tr & Etr & F). cbn [trace errorCount].
      exists (trace s2). split; [|reflexivity].
      rewrite Etr. cbn [trace opened]. rewrite !failed_app, Hs.
      rewrite (ordinary_not_failed _ F). reflexivity. }
  destruct Hshape as (tr & Htr & Etr). split.
  - rewrite Etr, failed_app, Htr, failed_verdict. cbn [orb].
    destruct (Z.gtb_spec (errorCount s') 0); split; intros; lia || congruence.
  - exists tr. split; [exact Htr|exact Etr].
Qed.

Lemma run_verdict_witness :
  failed (trace (snd (Action.body (H := Demo.plain) initial))) = true
  <-> 0 < errorCount (snd (Action.body (H := Demo.plain) initial)).
Proof.
  apply (run_verdict (H := Demo.plain) Action.body initial
           (snd (Action.body (H := Demo.plain) initial)));
    [now left | reflexivity | vm_compute; reflexivity].
Defined.


(** ** The outermost handler *)

Section ThrowFacts.

Context {H : Host}.

Variable P : Effect -> Prop.

Lemma emitsBeforeThrow_bind {A B} (m : M H A) (k : A -> M H B) :
  emits P m -> (forall a, emitsBeforeThrow P (k a)) ->
  emitsBeforeThrow P (bind m k).
Proof.
  intros Hm Hk s e s' E. unfold bind in E.
  destruct (Hm s) as (tr1 & E1 & F1).
  destruct (m s) as [[e1|a] s1]; cbn [snd] in E1.
  - injection E as <- <-. now exists tr1.
  - destruct (Hk a s1 e s' E) as (tr2 & E2 & F2).
    exists (tr1 ++ tr2). rewrite E2, E1, app_assoc. split; [reflexivity|].
    now apply Forall_app.
Qed.

Lemma emitsBeforeThrow_returns {A} (m : M H A) :
  (forall s, exists a s', m s = (inr a, s')) -> emitsBeforeThrow P m.
Proof.
  intros Hm s e s' E. destruct (Hm s) as (a & s1 & E1). congruence.
Qed.

End ThrowFacts.

Lemma notSetFailed_not_failed tr : Forall notSetFailed tr -> failed tr = false.
Proof.
  induction 1 as [|e tr He _ IH]; [reflexivity|].
  cbn. unfold notSetFailed in He. now rewrite He.
Qed.

Lemma verdict_returns {H : Host} n (s : RunState H) :
  exists a s',
    (if n >? 0
     then setFailed ("Event data validation failed for " ++ showZ n
                     ++ " event(s).")%string
     else info "Complete") s = (inr a, s').
Proof. rewrite emit_verdict. eauto. Qed.

Lemma Action_body_throws {H : Host} :
  emitsBeforeThrow (H := H) notSetFailed Action.body.
Proof.
  assert (Hi : forall m, notSetFailed (core_info m)) by reflexivity.
  assert (He : forall m p, notSetFailed (core_error m p)) by reflexivity.
  assert (Hw : forall p d, notSetFailed (fs_writeFileSync p d)) by reflexivity.
  unfold Action.body.
  apply emitsBeforeThrow_bind; [apply emits_emit, Hi|intros _].
  apply emitsBeforeThrow_bind; [apply emits_call|intros files].
  apply emitsBeforeThrow_bind; [apply emits_emit, Hi|intros _].
  apply emitsBeforeThrow_bind;
    [apply emits_awaitAll; auto using emits_Action_startTask|intros _].
  apply emitsBeforeThrow_bind; [apply emits_call|intros ctx].
  apply emitsBeforeThrow_bind; [apply emits_emit, Hi|intros _].
  apply emitsBeforeThrow_bind; [apply emits_emit, Hi|intros _].
  apply emitsBeforeThrow_bind; [now apply emits_silent|intros evs].
  apply emitsBeforeThrow_bind; [apply emits_writeFile, Hw|intros _].
  apply emitsBeforeThrow_bind; [now apply emits_silent|intros n].
  apply emitsBeforeThrow_returns. intros s. apply verdict_returns.
Qed.

Lemma Main_body_throws {H : Host} :
  emitsBeforeThrow (H := H) notSetFailed Main.body.
Proof.
  assert (Hi : forall m, notSetFailed (core_info m)) by reflexivity.
  assert (He : forall m p, notSetFailed (core_error m p)) by reflexivity.
  assert (Hw : forall p d, notSetFailed (fs_writeFileSync p d)) by reflexivity.
  unfold Main.body.
  apply emitsBeforeThrow_bind; [apply emits_emit, Hi|intros _].
  apply emitsBeforeThrow_bind; [apply emits_call|intros files].
  apply emitsBeforeThrow_bind; [apply emits_emit, Hi|intros _].
  apply emitsBeforeThrow_bind;
    [apply emits_awaitAll; auto using emits_Main_startTask|intros _].
  apply emitsBeforeThrow_bind; [now apply emits_silent|intros n].
  apply emitsBeforeThrow_returns. intros s. apply verdict_returns.
Qed.

(** C9, as the code has it: the outermost handler turns a thrown [Error]
    into one call of [core.setFailed] with its message, the only one of the
    run; any other thrown value is swallowed, and the run ends without a
    failed outcome. In neither case does the exception leave [run]. *)
Theorem top_level_catch {H : Host} (body : M H unit) e (s s' : RunState H) :
  body = Action.body \/ body = Main.body ->
  failed (trace s) = false ->
  body s = (inl e, s') ->
  failed (trace s') = false
  /\ topLevel body s
     = (inr tt,
        match e with
        | ErrorObject m =>
            mkState (errorCount s') (events s')
              (trace s' ++ [core_setFailed m])
        | NonError _ => s'
        end).
Proof.
  intros Hbody Hs Hrun. split.
  - assert (Hthrows : emitsBeforeThrow notSetFailed body)
      by (destruct Hbody as [-> | ->];
          [apply Action_body_throws|apply Main_body_throws]).
    destruct (Hthrows s e s' Hrun) as (tr & -> & F).
    now rewrite failed_app, Hs, (notSetFailed_not_failed _ F).
  - unfold topLevel, tryCatch. rewrite Hrun. now destruct e.
Qed.

Lemma top_level_catch_witness :
  Action.run (H := Demo.walkThrows) initial
  = (inr tt,
     mkState 0 [] [core_info "@deniz-blue/action-events-repo is running"]).
Proof.
  apply (top_level_catch (H := Demo.walkThrows) Action.body
           (NonError "boom") initial
           (mkState 0 [] [core_info "@deniz-blue/action-events-repo is running"]));
    [now left | reflexivity | reflexivity].
Defined.

(** C9, as stated, fails: a thrown value that is not an [Error] leaves the
    run with a successful outcome, and nothing is reported. *)
Lemma non_error_is_swallowed :
  fst (Action.body (H := Demo.walkThrows) initial) = inl (NonError "boom")
  /\ fst (Action.run (H := Demo.walkThrows) initial) = inr tt
  /\ failed (trace (snd (Action.run (H := Demo.walkThrows) initial))) = false
  /\ fst (Main.run (H := Demo.walkThrows) initial) = inr tt
  /\ failed (trace (snd (Main.run (H := Demo.walkThrows) initial))) = false.
Proof. repeat split. Qed.

(** ** The manifest *)

Section ManifestFacts.

Context {H : Host}.

Lemma Map_set_keys {V} (m : list (string * V)) k v q :
  In q (map fst (Map_set m k v)) <-> In q (map fst m) \/ q = k.
Proof.
  induction m as [|[k' v'] m IH]; cbn [Map_set map fst In].
  - intuition congruence.
  - destruct (String.eqb_spec k' k) as [->|Hne]; cbn [map fst In].
    + intuition congruence.
    + rewrite IH. intuition congruence.
Qed.

Lemma Map_set_NoDup {V} (m : list (string * V)) k v :
  NoDup (map fst m) -> NoDup (map fst (Map_set m k v)).
Proof.
  induction m as [|[k' v'] m IH]; cbn [Map_set map fst]; intros Hnd.
  - constructor; [intros []|constructor].
  - inversion Hnd as [|x l Hnotin Hnd']; subst.
    destruct (String.eqb_spec k' k) as [->|Hne]; cbn [map fst].
    + now constructor.
    + constructor; [|now apply IH].
      rewrite Map_set_keys. intuition congruence.
Qed.

Lemma annotateIssues_state path content issues (s : RunState H) :
  events (snd (annotateIssues path content issues s)) = events s.
Proof.
  destruct (parseTree H content) as [tree|] eqn:Hp.
  - now rewrite (annotateIssues_tree _ _ _ _ _ Hp).
  - now rewrite (annotateIssues_null _ _ _ _ Hp).
Qed.

(** A settled read adds its path to the events exactly when the file
    validates. *)
Lemma resumeTask_events p (s s' : RunState H) :
  resumeTask p s = (inr tt, s') ->
  (forall q, In q (map fst (events s'))
             <-> In q (map fst (events s)) \/ (q = p /\ validPath H p))
  /\ (NoDup (map fst (events s)) -> NoDup (map fst (events s'))).
Proof.
  destruct (readFile H p) as [e|content] eqn:Hr.
  { unfold resumeTask, bind, call. rewrite Hr. discriminate. }
  rewrite (resumeTask_read _ _ _ Hr).
  assert (Hsame : events s' = events s -> ~ validPath H p ->
            (forall q, In q (map fst (events s'))
                       <-> In q (map fst (events s)) \/ (q = p /\ validPath H p))
            /\ (NoDup (map fst (events s)) -> NoDup (map fst (events s')))).
  { intros -> Hnv. split; [intuition|auto]. }
  destruct (JSON_parse H content) as [j|] eqn:Hj.
  - destruct (safeParse H j) as [data|issues] eqn:Hv.
    + rewrite (validateContent_success _ _ _ _ _ Hj Hv). intros E.
      injection E as <-. cbn [events]. split.
      * intros q. rewrite Map_set_keys.
        assert (validPath H p) by (exists content, j, data; auto).
        intuition.
      * apply Map_set_NoDup.
    + rewrite (validateContent_schema_failure _ _ _ _ _ Hj Hv). intros E.
      apply Hsame.
      * pose proof (annotateIssues_state p content issues
                      (mkState (errorCount s + 1) (events s) (trace s))) as Hst.
        rewrite E in Hst. exact Hst.
      * intros (c' & j' & d' & Hr' & Hj' & Hv'). congruence.
  - rewrite (validateContent_parse_failure _ _ _ Hj). intros E.
    injection E as <-. apply Hsame; [reflexivity|].
    intros (c' & j' & d' & Hr' & Hj' & Hv'). congruence.
Qed.

Lemma forEach_resume_events ps (s s' : RunState H) :
  forEach ps resumeTask s = (inr tt, s') ->
  (forall q, In q (map fst (events s'))
             <-> In q (map fst (events s)) \/ (In q ps /\ validPath H q))
  /\ (NoDup (map fst (events s)) -> NoDup (map fst (events s'))).
Proof.
  revert s. induction ps as [|p ps IH]; intros s; cbn [forEach].
  - intros E. injection E as <-. split; [|auto]. cbn [In]. intuition.
  - unfold bind. destruct (resumeTask p s) as [[e|[]] s1] eqn:E1;
      [discriminate|].
    intros E2. destruct (resumeTask_events _ _ _ E1) as [K1 N1].
    destruct (IH _ E2) as [K2 N2]. split; [|auto].
    intros q. rewrite K2, K1. cbn [In].
    split.
    + intros [[?|[-> ?]]|[? ?]]; auto.
    + intros [?|[[<-|?] ?]]; auto.
Qed.

(** The synchronous part of a task of [Action] leaves the events alone and
    waits for a read exactly for the files that are not skipped. *)
Lemma Action_startTask_cases d (s : RunState H) :
  events (snd (Action.startTask d s)) = events s
  /\ (awaited d = true ->
      Action.startTask d s = (inr (Some (pathOf H d)), s))
  /\ (awaited d = false ->
      forall p, fst (Action.startTask d s) <> inr (Some p)).
Proof.
  unfold Action.startTask, awaited, pathOf.
  destruct (startsWith (name d) "."); cbn [negb andb].
  { repeat split; [discriminate|]. intros _ p. discriminate. }
  destruct (isFile d); cbn [negb].
  { repeat split. discriminate. }
  unfold bind, call, writeFile, info, emit.
  destruct (isDirectory d).
  - destruct (readdirSync H _) as [e|names]; cbn [throw ret].
    { repeat split; [discriminate|]. intros _ p. discriminate. }
    destruct (writeFileSync H _ _) as [e|]; cbn [throw ret].
    { repeat split; [discriminate|]. intros _ p. discriminate. }
    repeat split; [discriminate|]. intros _ p. discriminate.
  - cbn [ret]. repeat split; [discriminate|]. intros _ p. discriminate.
Qed.

Lemma Action_startAll files (s : RunState H) :
  events (snd (startAll Action.startTask files s)) = events s
  /\ snd (fst (startAll Action.startTask files s))
     = map (pathOf H) (filter awaited files).
Proof.
  revert s. induction files as [|d files IH]; intros s; cbn [startAll].
  - now split.
  - destruct (Action_startTask_cases d s) as (Hev & Hyes & Hno).
    destruct (Action.startTask d s) as [r s1] eqn:E1. cbn [snd fst] in *.
    destruct (IH s1) as [IHev IHp].
    destruct (startAll Action.startTask files s1) as [[rej pend] s2].
    cbn [snd fst filter] in *.
    destruct (awaited d) eqn:Ha.
    + specialize (Hyes eq_refl). injection Hyes as -> ->.
      cbn [snd fst map]. split; [congruence|now rewrite IHp].
    + specialize (Hno eq_refl).
      destruct r as [e|[p|]]; cbn [snd fst]; [| exfalso; now apply (Hno p) |];
        split; congruence.
Qed.

End ManifestFacts.

(** C8: the manifest is written once; its entries have distinct paths, which
    are the paths of the entries of the walk that are files, are not skipped
    and validate; the url of an entry is the pages URL, then [/events/],
    then its path. *)
Theorem manifest_entries {H : Host} files owner repo (s' : RunState H) :
  globSyncDirents H (eventsPath H) = inr files ->
  context_repo H = inr (owner, repo) ->
  (forall l, Permutation (settleOrder H l) l) ->
  Action.body initial = (inr tt, s') ->
  exists before evs last,
    trace s'
    = before
      ++ [fs_writeFileSync ".index.json"
            (Manifest (owner ++ "/" ++ repo)%string evs); last]
    /\ Forall (fun e => isManifestWrite e = false) (last :: before)
    /\ NoDup (map fst evs)
    /\ (forall p, In p (map fst evs)
                  <-> exists d, In d files /\ validated H d /\ pathOf H d = p)
    /\ (forall p u, In (p, u) evs ->
          u = (("https://" ++ owner ++ ".github.io/" ++ repo)
               ++ "/events/" ++ p)%string).
Proof.
  intros Hglob Hctx Hperm Hrun.
  apply Action_body_returns in Hrun.
  destruct Hrun as (files' & s2 & ctx & Hglob' & Hawait & Hctx' & ->).
  assert (files' = files) by congruence. subst files'.
  assert (ctx = (owner, repo)) by congruence. subst ctx. cbn [fst snd].
  pose proof (awaitAll_ordinary _ _ _ _ _
                (fun d => emits_Action_startTask ordinary ordinary_info
                            ordinary_listing d) Hawait) as (tr & Etr & Ftr).
  unfold awaitAll in Hawait.
  destruct (Action_startAll (H := H) files (opened initial files))
    as [Hev Hpend].
  destruct (startAll Action.startTask files (opened initial files))
    as [[rej pend] s1]. cbn [fst snd] in Hev, Hpend.
  destruct rej as [|e rej]; [|discriminate].
  destruct (forEach_resume_events _ _ _ Hawait) as [Hkeys Hnd].
  rewrite Hev in Hkeys, Hnd. cbn [opened events initial map] in Hkeys, Hnd.
  exists (trace s2
          ++ [core_info ("Repository: " ++ owner ++ "/" ++ repo)%string;
              core_info ("Pages URL: " ++ Action.pagesUrlOf owner repo)%string]),
    (map (Action.manifestEntry (Action.pagesUrlOf owner repo)) (events s2)),
    (verdict (errorCount s2)).
  cbn [trace].
  assert (Hfst : map fst (map (Action.manifestEntry (Action.pagesUrlOf owner repo))
                            (events s2)) = map fst (events s2)).
  { rewrite map_map. apply map_ext. now intros [p d]. }
  split; [now rewrite <- app_assoc|]. split; [|split; [|split]].
  - constructor.
    + unfold verdict. now destruct (errorCount s2 >? 0).
    + rewrite Etr. cbn [opened trace initial app].
      do 2 (constructor; [reflexivity|]). apply Forall_app.
      split; [now apply ordinary_no_manifest|repeat constructor].
  - rewrite Hfst. apply Hnd. constructor.
  - intros p. rewrite Hfst, Hkeys. cbn [In]. split.
    + intros [[]|[Hin Hvalid]].
      apply (Permutation_in _ (Hperm pend)) in Hin.
      rewrite Hpend in Hin. apply in_map_iff in Hin.
      destruct Hin as (d & <- & Hd). apply filter_In in Hd.
      destruct Hd as [Hd Haw]. unfold awaited in Haw.
      apply andb_prop in Haw. destruct Haw as [Hvis Hfile].
      exists d. split; [exact Hd|]. split; [|reflexivity].
      split; [|split; assumption].
      now destruct (startsWith (name d) ".").
    + intros (d & Hd & (Hvis & Hfile & Hvalid) & <-). right.
      split; [|exact Hvalid].
      apply (Permutation_in _ (Permutation_sym (Hperm pend))).
      rewrite Hpend. apply in_map. apply filter_In. split; [exact Hd|].
      unfold awaited. now rewrite Hvis, Hfile.
  - intros p u Hin. apply in_map_iff in Hin.
    destruct Hin as ([p' d] & E & _). unfold Action.manifestEntry in E.
    cbn [fst] in E. injection E as <- <-. reflexivity.
Qed.

Lemma manifest_entries_witness :
  exists before evs last,
    trace (snd (Action.body (H := Demo.plain) initial))
    = before
      ++ [fs_writeFileSync ".index.json" (Manifest "owner/repo" evs); last]
    /\ Forall (fun e => isManifestWrite e = false) (last :: before)
    /\ NoDup (map fst evs)
    /\ (forall p, In p (map fst evs)
                  <-> exists d, In d Demo.entries /\ validated Demo.plain d
                                /\ pathOf Demo.plain d = p)
    /\ (forall p u, In (p, u) evs ->
          u = (("https://" ++ "owner" ++ ".github.io/" ++ "repo")
               ++ "/events/" ++ p)%string).
Proof.
  apply (manifest_entries (H := Demo.plain) Demo.entries "owner" "repo"
           (snd (Action.body (H := Demo.plain) initial))).
  - reflexivity.
  - reflexivity.
  - intros l. apply Permutation_sym, Permutation_rev.
  - vm_compute. reflexivity.
Defined.

(** The example of the specification: the url of [a/b.json] under the pages
    URL of owner/repo. *)
Example manifest_url_example (data : EventData Demo.plain) :
  Action.manifestEntry (Action.pagesUrlOf "owner" "repo") ("a/b.json", data)
  = ("a/b.json", "https://owner.github.io/repo/events/a/b.json").
Proof. reflexivity. Qed.

(** ** The end of [checkEvents] *)

Section TaskFacts.

Context {H : Host}.

Lemma settleAll_trace dir files (s : RunState H) :
  exists tr,
    trace (snd (Task.settleAll dir files s)) = trace s ++ tr
    /\ Forall ordinary tr.
Proof.
  revert s. induction files as [|f files IH]; intros s; cbn [Task.settleAll].
  - exists []. cbn. now rewrite app_nil_r.
  - assert (H1 : exists tr1, trace (snd (Task.checkFile dir f s)) = trace s ++ tr1
                             /\ Forall ordinary tr1).
    { unfold Task.checkFile.
      assert (Hnil : exists tr1, trace s = trace s ++ tr1 /\ Forall ordinary tr1)
        by (exists []; now rewrite app_nil_r).
      destruct (startsWith f "."); [exact Hnil|].
      destruct (readFile H _); [exact Hnil|].
      destruct (JSON_parse H _); [|exact Hnil].
      destruct (safeParse H _); [|exact Hnil].
      eexists [_]. split; [reflexivity|]. repeat constructor. }
    destruct H1 as (tr1 & E1 & F1).
    destruct (Task.checkFile dir f s) as [r s1]. cbn [snd] in E1.
    destruct (IH s1) as (tr2 & E2 & F2).
    destruct (Task.settleAll dir files s1) as [rs s2]. cbn [snd] in *.
    exists (tr1 ++ tr2). rewrite E2, E1, app_assoc. split; [reflexivity|].
    now apply Forall_app.
Qed.

Lemma emits_annotate r : emits (H := H) ordinary (Task.annotate r).
Proof.
  destruct r as [path issues content|path|e]; cbn [Task.annotate].
  - apply emits_annotateIssues. apply ordinary_error.
  - apply emits_emit, ordinary_error.
  - apply emits_emit, ordinary_error.
Qed.

(** When [checkEvents] returns, [core.setFailed] has been called if and
    only if some task was rejected; it is then the last call, with the summary
    that names the number of rejected tasks. *)
Lemma checkEvents_verdict dir (s s' : RunState H) :
  failed (trace s) = false ->
  Task.checkEvents dir s = (inr tt, s') ->
  exists files errors s1,
    globSync H dir = inr files
    /\ Task.settleAll dir files s = (errors, s1)
    /\ (failed (trace s') = true <-> errors <> [])
    /\ (errors <> [] ->
        exists tr,
          trace s'
          = tr ++ [core_setFailed
                     ("Validation failed for "
                      ++ showZ (Z.of_nat (List.length errors))
                      ++ " file(s)!")%string]).
Proof.
  intros Hs. unfold Task.checkEvents, bind, call.
  destruct (globSync H dir) as [e|files]; [discriminate|]. cbn [ret].
  destruct (settleAll_trace dir files s) as (tr1 & E1 & F1).
  destruct (Task.settleAll dir files s) as [errors s1] eqn:Hsettle.
  cbn [snd] in E1.
  destruct (emits_forEach ordinary errors Task.annotate emits_annotate s1)
    as (tr2 & E2 & F2).
  destruct (forEach errors Task.annotate s1) as [[e|[]] s2]; [discriminate|].
  cbn [snd] in E2.
  assert (Hquiet : failed (trace s2) = false).
  { rewrite E2, E1, !failed_app, Hs.
    now rewrite (ordinary_not_failed _ F1), (ordinary_not_failed _ F2). }
  destruct errors as [|r errors].
  - cbn. intros E. injection E as <-. exists files, [], s1.
    repeat split; try congruence.
  - replace (Z.of_nat (List.length (r :: errors)) >? 0) with true
      by (symmetry; apply Z.gtb_lt; cbn [List.length]; lia).
    unfold setFailed, emit. intros E. injection E as <-.
    exists files, (r :: errors), s1. cbn [trace].
    split; [reflexivity|]. split; [exact Hsettle|]. split.
    + split; [discriminate|]. intros _. now rewrite failed_app, Hquiet.
    + intros _. now exists (trace s2).
Qed.

End TaskFacts.

(** ** What [errorCount] counts *)

Section CountFacts.

Context {H : Host}.

Lemma validates_validPath p : validates H p = true <-> validPath H p.
Proof.
  unfold validates, validPath. split.
  - destruct (readFile H p) as [e|content] eqn:Hr; [discriminate|].
    destruct (JSON_parse H content) as [j|] eqn:Hj; [|discriminate].
    destruct (safeParse H j) as [data|issues] eqn:Hv; [|discriminate].
    intros _. now exists content, j, data.
  - intros (content & j & data & -> & -> & ->). reflexivity.
Qed.

Lemma annotateIssues_errorCount path content issues (s : RunState H) :
  errorCount (snd (annotateIssues path content issues s)) = errorCount s.
Proof.
  destruct (parseTree H content) as [tree|] eqn:Hp.
  - now rewrite (annotateIssues_tree _ _ _ _ _ Hp).
  - now rewrite (annotateIssues_null _ _ _ _ Hp).
Qed.

(** A settled read counts one failure exactly when the file does not
    validate. *)
Lemma resumeTask_errorCount p (s s' : RunState H) :
  resumeTask p s = (inr tt, s') ->
  errorCount s' = errorCount s + (if validates H p then 0 else 1).
Proof.
  unfold validates.
  destruct (readFile H p) as [e|content] eqn:Hr.
  { unfold resumeTask, bind, call. rewrite Hr. discriminate. }
  rewrite (resumeTask_read _ _ _ Hr).
  destruct (JSON_parse H content) as [j|] eqn:Hj.
  - destruct (safeParse H j) as [data|issues] eqn:Hv.
    + rewrite (validateContent_success _ _ _ _ _ Hj Hv). intros E.
      injection E as <-. cbn [errorCount]. lia.
    + rewrite (validateContent_schema_failure _ _ _ _ _ Hj Hv). intros E.
      pose proof (annotateIssues_errorCount p content issues
                    (mkState (errorCount s + 1) (events s) (trace s))) as Hc.
      rewrite E in Hc. exact Hc.
  - rewrite (validateContent_parse_failure _ _ _ Hj). intros E.
    now injection E as <-.
Qed.

Lemma forEach_resume_errorCount ps (s s' : RunState H) :
  forEach ps resumeTask s = (inr tt, s') ->
  errorCount s'
  = errorCount s
    + Z.of_nat (List.length (filter (fun p => negb (validates H p)) ps)).
Proof.
  revert s. induction ps as [|p ps IH]; intros s; cbn [forEach filter].
  - intros E. injection E as <-. cbn. lia.
  - unfold bind. destruct (resumeTask p s) as [[e|[]] s1] eqn:E1;
      [discriminate|].
    intros E2. rewrite (IH _ E2), (resumeTask_errorCount _ _ _ E1).
    destruct (validates H p); cbn [negb List.length]; lia.
Qed.

Lemma Action_startTask_errorCount d (s : RunState H) :
  errorCount (snd (Action.startTask d s)) = errorCount s.
Proof.
  unfold Action.startTask.
  destruct (startsWith (name d) "."); [reflexivity|].
  destruct (negb (isFile d)); [|reflexivity].
  unfold bind, call, writeFile, info, emit.
  destruct (isDirectory d); [|reflexivity].
  destruct (readdirSync H _) as [e|names]; [reflexivity|]. cbn [ret].
  now destruct (writeFileSync H _ _).
Qed.

Lemma Action_startAll_errorCount files (s : RunState H) :
  errorCount (snd (startAll Action.startTask files s)) = errorCount s.
Proof.
  revert s. induction files as [|d files IH]; intros s; cbn [startAll].
  - reflexivity.
  - pose proof (Action_startTask_errorCount d s) as E1.
    destruct (Action.startTask d s) as [r s1]. cbn [snd] in E1.
    specialize (IH s1).
    destruct (startAll Action.startTask files s1) as [[rej pend] s2].
    cbn [snd] in *. congruence.
Qed.

Lemma filter_length_Permutation {A} (f : A -> bool) (l l' : list A) :
  Permutation l l' ->
  List.length (filter f l) = List.length (filter f l').
Proof.
  induction 1 as [|x l l' _ IH|x y l|l l' l'' _ IH1 _ IH2]; cbn [filter].
  - reflexivity.
  - destruct (f x); cbn [List.length]; congruence.
  - destruct (f x), (f y); reflexivity.
  - congruence.
Qed.

(** X9: when the body of [run] ends without an exception, [errorCount] is
    the number of files of the walk that were not skipped and did not
    validate, whatever the order in which their reads completed. *)
Lemma errorCount_counts_failing_files files (s' : RunState H) :
  globSyncDirents H (eventsPath H) = inr files ->
  (forall l, Permutation (settleOrder H l) l) ->
  Action.body initial = (inr tt, s') ->
  errorCount s' = Z.of_nat (List.length (filter (failing H) files)).
Proof.
  intros Hglob Hperm Hrun.
  apply Action_body_returns in Hrun.
  destruct Hrun as (files' & s2 & ctx & Hglob' & Hawait & _ & ->).
  assert (files' = files) by congruence. subst files'. cbn [errorCount].
  unfold awaitAll in Hawait.
  pose proof (Action_startAll_errorCount files (opened initial files)) as Hc.
  destruct (Action_startAll (H := H) files (opened initial files))
    as [_ Hpend].
  destruct (startAll Action.startTask files (opened initial files))
    as [[rej pend] s1]. cbn [fst snd] in Hc, Hpend.
  destruct rej as [|e rej]; [|discriminate].
  rewrite (forEach_resume_errorCount _ _ _ Hawait), Hc.
  rewrite (filter_length_Permutation _ _ _ (Hperm pend)), Hpend.
  cbn [opened errorCount initial]. rewrite Z.add_0_l. f_equal.
  clear. induction files as [|d files IH]; [reflexivity|].
  cbn [filter]. unfold failing at 1.
  destruct (awaited d); cbn [andb map filter]; [|exact IH].
  destruct (validates H (pathOf H d)); cbn [negb List.length]; now rewrite IH.
Qed.

End CountFacts.

(** * Further properties *)

(** ** Position Resolver *)

Section PositionMore.

Lemma offsetOf_regular t o :
  0 <= o <= len t -> regular t o ->
  offsetOf (lineLengths t) (getPosition t o) = o.
Proof.
  intros Ho Hreg. unfold offsetOf.
  rewrite getPosition_line by assumption.
  unfold countBreaks. rewrite Nat2Z.id, lineStart_lastBreakIn.
  unfold getPosition. cbn [column].
  rewrite lastIndexOf_lastBreakIn by assumption. lia.
Qed.

Lemma column_regular t o :
  0 <= o <= len t -> regular t o ->
  column (getPosition t o) = o - lastBreakIn t (Z.to_nat o) - 1.
Proof.
  intros Ho Hreg. unfold getPosition. cbn [column].
  now rewrite lastIndexOf_lastBreakIn.
Qed.

Lemma regular_dec t o : regular t o \/ (o <= 0 /\ exists t', t = LF :: t').
Proof.
  unfold regular. destruct (Z_le_gt_dec 1 o); [now left; left|].
  destruct t as [|c t']; [left; right; discriminate|].
  destruct (N.eq_dec c LF) as [->|Hc].
  - right. split; [lia|]. now exists t'.
  - left. right. rewrite charAt_head. congruence.
Qed.

Lemma lineLengths_nonneg t : Forall (fun n => 0 <= n) (lineLengths t).
Proof.
  unfold lineLengths. apply Forall_forall. intros n Hn.
  apply in_map_iff in Hn. destruct Hn as (p & <- & _). unfold len. lia.
Qed.

Lemma nth_nonneg (lens : list Z) k :
  Forall (fun n => 0 <= n) lens -> 0 <= nth k lens 0.
Proof.
  intros F. revert k. induction F as [|n lens Hn _ IH]; intros [|k];
    cbn [nth]; auto; lia.
Qed.

Lemma lastBreakIn_none t n :
  lastBreakIn t n = -1 <-> count_occ N.eq_dec (firstn n t) LF = 0%nat.
Proof.
  revert t. induction n as [|n IH]; intros [|c t]; cbn [lastBreakIn firstn];
    try (split; reflexivity).
  specialize (IH t). pose proof (lastBreakIn_range t n) as R.
  cbn [count_occ].
  destruct (Z.leb_spec 0 (lastBreakIn t n)) as [Hr|Hr].
  - destruct (N.eq_dec c LF); split; intros E; lia || discriminate.
  - assert (Hm : lastBreakIn t n = -1) by lia. apply IH in Hm.
    destruct (N.eqb_spec c LF) as [->|Hne].
    + destruct (N.eq_dec LF LF) as [_|F]; [|contradiction].
      split; intros E; [lia|discriminate].
    + destruct (N.eq_dec c LF) as [E|_]; [contradiction|]. now split.
Qed.

(** The column of an offset does not pass the end of its line. *)
Lemma column_within_line t n :
  (n <= List.length t)%nat ->
  Z.of_nat n - lastBreakIn t n - 1
  <= nth (count_occ N.eq_dec (firstn n t) LF) (lineLengths t) 0.
Proof.
  revert t. induction n as [|n IH]; intros t Hn.
  - replace (lastBreakIn t 0) with (-1) by now destruct t.
    pose proof (nth_nonneg (lineLengths t)
                  (count_occ N.eq_dec (firstn 0 t) LF)
                  (lineLengths_nonneg t)). lia.
  - destruct t as [|c t]; [cbn in Hn; lia|].
    cbn [List.length] in Hn. specialize (IH t ltac:(lia)).
    pose proof (lastBreakIn_range t n) as R.
    pose proof (lastBreakIn_none t n) as Hnone.
    cbn [firstn lastBreakIn]. unfold lineLengths in *. cbn [split count_occ].
    destruct (N.eqb_spec c LF) as [->|Hne].
    + destruct (N.eq_dec LF LF) as [_|F]; [|contradiction].
      cbn [map nth].
      destruct (Z.leb_spec 0 (lastBreakIn t n)); lia.
    + destruct (N.eq_dec c LF) as [E|_]; [contradiction|].
      destruct (split LF t) as [|p ps] eqn:E; [now apply split_nonempty in E|].
      cbn [map] in *.
      replace (len (c :: p)) with (len p + 1)
        by (unfold len; cbn [List.length]; lia).
      destruct (count_occ N.eq_dec (firstn n t) LF) as [|k] eqn:C.
      * cbn [nth] in *. assert (lastBreakIn t n = -1) by now apply Hnone.
        destruct (Z.leb_spec 0 (lastBreakIn t n)); lia.
      * cbn [nth] in *.
        destruct (Z.leb_spec 0 (lastBreakIn t n)) as [|Hneg]; [lia|].
        exfalso. assert (Hm : lastBreakIn t n = -1) by lia.
        apply Hnone in Hm. discriminate.
Qed.

Lemma lastIndexFrom_app t u c k :
  (k < List.length t)%nat ->
  lastIndexFrom (t ++ u) c k = lastIndexFrom t c k.
Proof.
  induction k as [|k IH]; intros Hk; rewrite (lastIndexFrom_eq (t ++ u)),
    (lastIndexFrom_eq t), nth_error_app1 by lia.
  - reflexivity.
  - now rewrite IH by lia.
Qed.

Lemma slice_whole t o : len t <= o -> slice t 0 o = t.
Proof.
  intros Ho. unfold slice, sliceIndex.
  assert (0 <= len t) by (unfold len; lia).
  replace (0 <? 0)%Z with false by reflexivity.
  destruct (Z.ltb_spec o 0); [lia|].
  rewrite (Z.min_l 0), (Z.min_r o) by lia. cbn [Z.to_nat skipn].
  rewrite Z.sub_0_r, Z.max_l by lia.
  unfold len. rewrite Nat2Z.id. apply firstn_all.
Qed.

End PositionMore.

Lemma getPosition_regular_witness :
  line (getPosition Demo.wrongText 16)
  = countBreaks (firstn (Z.to_nat 16) Demo.wrongText)
  /\ exists b, lastBreakBefore Demo.wrongText 16 b
               /\ column (getPosition Demo.wrongText 16) = 16 - b - 1.
Proof.
  apply (getPosition_regular Demo.wrongText 16).
  - unfold len. simpl. lia.
  - left. lia.
Defined.

Lemma getPosition_roundtrip_regular_witness :
  offsetOf (lineLengths Demo.wrongText) (getPosition Demo.wrongText 16) = 16.
Proof.
  apply (getPosition_roundtrip_regular Demo.wrongText 16).
  - unfold len. simpl. lia.
  - left. lia.
Defined.

(** X3: two offsets of a text with the same position are the same offset,
    the irregular one included. *)
Theorem getPosition_injective t o1 o2 :
  0 <= o1 <= len t -> 0 <= o2 <= len t ->
  getPosition t o1 = getPosition t o2 -> o1 = o2.
Proof.
  intros H1 H2 E.
  assert (Hcol : forall o, 0 <= o <= len t -> regular t o ->
                           0 <= column (getPosition t o)).
  { intros o Ho Hr. rewrite column_regular by assumption.
    pose proof (lastBreakIn_range t (Z.to_nat o)). lia. }
  assert (Hirr : forall o, 0 <= o <= len t ->
                   (o <= 0 /\ exists t', t = LF :: t') ->
                   o = 0 /\ column (getPosition t o) = -1).
  { intros o Ho [Hle [t' ->]]. assert (o = 0) by lia. subst o.
    split; [reflexivity|]. now rewrite getPosition_at_leading_break. }
  destruct (regular_dec t o1) as [R1|I1], (regular_dec t o2) as [R2|I2].
  - rewrite <- (offsetOf_regular t o1), <- (offsetOf_regular t o2) by assumption.
    now rewrite E.
  - destruct (Hirr o2 H2 I2) as [_ C2]. specialize (Hcol o1 H1 R1).
    rewrite E in Hcol. lia.
  - destruct (Hirr o1 H1 I1) as [_ C1]. specialize (Hcol o2 H2 R2).
    rewrite <- E in Hcol. lia.
  - destruct (Hirr o1 H1 I1), (Hirr o2 H2 I2). lia.
Qed.

Lemma getPosition_injective_witness :
  getPosition [LF; 97%N] 0 = getPosition [LF; 97%N] (1 - 1) /\ 0 = 1 - 1.
Proof.
  split; [reflexivity|].
  apply (getPosition_injective [LF; 97%N] 0 (1 - 1));
    [unfold len; simpl; lia | unfold len; simpl; lia | reflexivity].
Defined.

(** X4: the position of an offset of a text that is not empty stays the same
    when more text is appended. *)
Theorem getPosition_append t u o :
  t <> [] -> 0 <= o <= len t ->
  getPosition (t ++ u) o = getPosition t o.
Proof.
  intros Hne Ho.
  assert (Hlen : 1 <= len t).
  { destruct t; [contradiction|]. unfold len. cbn [List.length]. lia. }
  assert (Happ : len (t ++ u) = len t + len u)
    by (unfold len; rewrite length_app; lia).
  assert (0 <= len u) by (unfold len; lia).
  unfold getPosition. f_equal.
  - rewrite !slice_prefix by lia.
    rewrite firstn_app.
    replace (Z.to_nat o - List.length t)%nat with 0%nat by (unfold len in *; lia).
    cbn [firstn]. now rewrite app_nil_r.
  - unfold lastIndexOf.
    destruct (Z.ltb_spec (len (t ++ u)) 1); [lia|].
    destruct (Z.ltb_spec (len t) 1); [lia|].
    rewrite !Z.min_l by lia.
    rewrite lastIndexFrom_app by (unfold len in *; lia). reflexivity.
Qed.

Lemma getPosition_append_witness :
  getPosition (Demo.wrongText ++ [LF; LF]) 16 = getPosition Demo.wrongText 16.
Proof.
  apply (getPosition_append Demo.wrongText [LF; LF] 16).
  - discriminate.
  - unfold len. simpl. lia.
Defined.

(** X5: at a regular offset the column is 0 exactly at the start of the text
    and right after a line break. *)
Theorem getPosition_column_zero t o :
  0 <= o <= len t -> regular t o ->
  (column (getPosition t o) = 0 <-> o = 0 \/ charAt t (o - 1) = Some LF).
Proof.
  intros Ho Hreg. rewrite column_regular by assumption.
  pose proof (lastBreakIn_spec t (Z.to_nat o)) as S.
  rewrite Z2Nat.id in S by lia.
  set (b := lastBreakIn t (Z.to_nat o)) in *.
  split.
  - intros E. assert (Hb : b = o - 1) by lia.
    destruct S as [[Hm _]|(Hr & Hat & _)]; [left; lia|].
    right. now rewrite <- Hb.
  - intros [->|Hat].
    + destruct S as [[-> _]|(Hr & _)]; lia.
    + assert (Hpos : 1 <= o).
      { destruct (Z_le_gt_dec 1 o); [assumption|].
        unfold charAt in Hat. destruct (Z.ltb_spec (o - 1) 0); [discriminate|lia]. }
      assert (S' : lastBreakBefore t o (o - 1)).
      { right. split; [lia|]. split; [exact Hat|]. intros i Hi. lia. }
      pose proof (lastBreakBefore_unique _ _ _ _ S S'). lia.
Qed.

Lemma getPosition_column_zero_witness :
  column (getPosition Demo.wrongText 9) = 0
  <-> 9 = 0 \/ charAt Demo.wrongText (9 - 1) = Some LF.
Proof.
  apply (getPosition_column_zero Demo.wrongText 9).
  - unfold len. simpl. lia.
  - left. lia.
Defined.

(** X6: an offset past the end of the text, up to the largest safe integer,
    is not refused: it is on the last line, as many columns after the end of
    the text as it lies behind it. *)
Theorem getPosition_past_end t o :
  len t <= o -> o <= maxSafeInteger ->
  line (getPosition t o) = countBreaks t
  /\ column (getPosition t o) = column (getPosition t (len t)) + (o - len t).
Proof.
  intros Ho _. assert (0 <= len t) by (unfold len; lia). split.
  - unfold getPosition. cbn [line]. rewrite slice_whole by assumption.
    rewrite split_length. unfold countBreaks. lia.
  - unfold getPosition. cbn [column]. unfold lastIndexOf.
    destruct (Z.ltb_spec (len t) 1); [lia|].
    rewrite !Z.min_r by lia. lia.
Qed.

Lemma getPosition_past_end_witness :
  line (getPosition Demo.wrongText 25) = countBreaks Demo.wrongText
  /\ column (getPosition Demo.wrongText 25)
     = column (getPosition Demo.wrongText (len Demo.wrongText))
       + (25 - len Demo.wrongText).
Proof.
  apply (getPosition_past_end Demo.wrongText 25).
  - unfold len. simpl. lia.
  - unfold maxSafeInteger. simpl. lia.
Defined.

(** X7: at a regular offset the position is a position of the text: the line
    is one of its lines and the column is between 0 and the length of that
    line. *)
Theorem getPosition_onLine t o :
  0 <= o <= len t -> regular t o -> onLine t (getPosition t o).
Proof.
  intros Ho Hreg. unfold onLine.
  rewrite getPosition_line, column_regular by assumption.
  unfold countBreaks. rewrite Nat2Z.id.
  pose proof (lastBreakIn_range t (Z.to_nat o)) as R.
  pose proof (column_within_line t (Z.to_nat o)
                ltac:(unfold len in Ho; lia)) as C.
  rewrite Z2Nat.id in C by lia.
  pose proof (count_firstn_mono t (Z.to_nat o) (List.length t)
                ltac:(unfold len in Ho; lia)) as M.
  rewrite firstn_all in M.
  unfold lineLengths at 1. rewrite length_map, split_length.
  repeat split; lia.
Qed.

Lemma getPosition_onLine_witness :
  onLine Demo.wrongText (getPosition Demo.wrongText 16).
Proof.
  apply (getPosition_onLine Demo.wrongText 16).
  - unfold len. simpl. lia.
  - left. lia.
Defined.

(** X8: a negative offset, down to the smallest safe integer, is not refused
    either: it counts from the end for the line, and the column is
    negative. *)
Theorem getPosition_negative_offset t o :
  - maxSafeInteger <= o -> o < 0 ->
  line (getPosition t o) = countBreaks (firstn (Z.to_nat (len t + o)) t)
  /\ (column (getPosition t o) = o \/ column (getPosition t o) = o - 1).
Proof.
  intros _ Ho. assert (0 <= len t) by (unfold len; lia). split.
  - unfold getPosition. cbn [line]. unfold slice, sliceIndex.
    replace (0 <? 0)%Z with false by reflexivity.
    destruct (Z.ltb_spec o 0); [|lia].
    rewrite (Z.min_l 0) by lia. cbn [Z.to_nat skipn].
    rewrite split_length. unfold countBreaks.
    replace (Z.to_nat (Z.max (Z.max (len t + o) 0 - 0) 0))
      with (Z.to_nat (len t + o)) by lia.
    lia.
  - unfold getPosition. cbn [column]. unfold lastIndexOf.
    destruct (Z.ltb_spec (len t) 1); [left; lia|].
    rewrite Z.max_r, Z.min_l by lia. cbn [Z.to_nat].
    rewrite lastIndexFrom_eq.
    destruct (isBreak_cases t 0) as [[_ ->]|[_ ->]]; [right|left]; lia.
Qed.

Lemma getPosition_negative_offset_witness :
  column (getPosition Demo.wrongText (-3)) = -3
  \/ column (getPosition Demo.wrongText (-3)) = -3 - 1.
Proof.
  apply (getPosition_negative_offset Demo.wrongText (-3)).
  - unfold maxSafeInteger. simpl. lia.
  - lia.
Defined.

(** ** Error Annotator *)

(** X10: the diagnostic of an issue whose node lies in the text, at a regular
    offset, has 1-indexed coordinates: lines and columns from 1, and the end
    line not before the start line. *)
Theorem located_coordinates_positive path content json issue n :
  findNodeAtLocation json (issue_path issue) = Some n ->
  0 <= nodeOffset n -> 0 <= nodeLength n ->
  nodeOffset n + nodeLength n <= len content ->
  regular content (nodeOffset n) ->
  exists sl sc el ec,
    issueDiagnostic path content json issue
    = core_error (issue_message issue)
        (mkProps (Some path) (Some sl) (Some sc) (Some el) (Some ec))
    /\ 1 <= sl <= el /\ 1 <= sc /\ 1 <= ec.
Proof.
  intros Hn Ho Hl Hend Hreg.
  unfold issueDiagnostic, issueProperties. rewrite Hn.
  do 4 eexists. split; [reflexivity|].
  assert (Hreg' : regular content (nodeOffset n + nodeLength n))
    by (destruct Hreg; [left; lia|now right]).
  rewrite !getPosition_line, !column_regular by (assumption || lia).
  pose proof (lastBreakIn_range content (Z.to_nat (nodeOffset n))).
  pose proof (lastBreakIn_range content
                (Z.to_nat (nodeOffset n + nodeLength n))).
  pose proof (count_firstn_mono content (Z.to_nat (nodeOffset n))
                (Z.to_nat (nodeOffset n + nodeLength n)) ltac:(lia)).
  unfold countBreaks. lia.
Qed.

Lemma located_coordinates_positive_witness :
  exists sl sc el ec,
    issueDiagnostic "a/wrong.json" Demo.wrongText Demo.wrongTree
      (mkIssue [Key "tags"; Index 2] "Expected string")
    = core_error "Expected string"
        (mkProps (Some "a/wrong.json") (Some sl) (Some sc) (Some el) (Some ec))
    /\ 1 <= sl <= el /\ 1 <= sc /\ 1 <= ec.
Proof.
  apply (located_coordinates_positive "a/wrong.json" Demo.wrongText
           Demo.wrongTree (mkIssue [Key "tags"; Index 2] "Expected string")
           (ValueNode 16 1)).
  - reflexivity.
  - simpl. lia.
  - simpl. lia.
  - unfold len. simpl. lia.
  - left. simpl. lia.
Defined.

(** ** What a run never does *)

Section RunTrace.

Context {H : Host}.

Variable P : Effect -> Prop.

Hypothesis P_info : forall m, P (core_info m).
Hypothesis P_filed : forall m p, file p <> None -> P (core_error m p).

Lemma emits_annotateIssues_filed path content issues :
  emits (H := H) P (annotateIssues path content issues).
Proof.
  unfold annotateIssues. destruct (parseTree H content); [|apply emits_ret].
  apply emits_forEach. intros i. apply emits_emit. apply P_filed.
  discriminate.
Qed.

Lemma emits_resumeTask_filed path : emits (H := H) P (resumeTask path).
Proof.
  unfold resumeTask. apply emits_bind; [apply emits_call|].
  intros content. unfold validateContent. apply emits_tryCatch.
  - destruct (JSON_parse H content) as [j|]; [|apply emits_throw].
    destruct (safeParse H j).
    + apply emits_bind; [now apply emits_silent|intros _].
      apply emits_emit, P_info.
    + apply emits_bind; [now apply emits_silent|intros _].
      apply emits_annotateIssues_filed.
  - intros e. apply emits_bind; [now apply emits_silent|intros _].
    apply emits_emit, P_filed. discriminate.
Qed.

Lemma emits_awaitAll_filed (startTask : Dirent -> M H (option string)) files :
  (forall d, emits P (startTask d)) -> emits P (awaitAll startTask files).
Proof.
  intros Hst s. unfold awaitAll.
  destruct (startAll_trace P startTask files Hst s) as (tr1 & E1 & F1).
  destruct (startAll startTask files s) as [[rej pend] s1]. cbn [snd] in E1.
  destruct rej as [|e rej]; cbn [snd].
  - destruct (emits_forEach P (settleOrder H pend) resumeTask
                emits_resumeTask_filed s1) as (tr2 & E2 & F2).
    exists (tr1 ++ tr2). rewrite E2, E1, app_assoc. split; [reflexivity|].
    now apply Forall_app.
  - now exists tr1.
Qed.

Hypothesis P_setFailed : forall m, P (core_setFailed m).

Lemma emits_verdict n :
  emits (H := H) P
    (if n >? 0
     then setFailed ("Event data validation failed for " ++ showZ n
                     ++ " event(s).")%string
     else info "Complete").
Proof. destruct (n >? 0); apply emits_emit; auto. Qed.

Lemma emits_topLevel (body : M H unit) : emits P body -> emits P (topLevel body).
Proof.
  intros Hb. apply emits_tryCatch; [exact Hb|].
  intros [m|v]; [apply emits_emit, P_setFailed|apply emits_ret].
Qed.

Lemma emits_Action_run :
  (forall q names,
      P (fs_writeFileSync (join H q ".ls")
           (Listing (filter (fun x => negb (startsWith x ".")) names)))) ->
  (forall r evs, P (fs_writeFileSync ".index.json" (Manifest r evs))) ->
  emits (H := H) P Action.run.
Proof.
  intros P_ls P_index. apply emits_topLevel. unfold Action.body.
  apply emits_bind; [apply emits_emit, P_info|intros _].
  apply emits_bind; [apply emits_call|intros files].
  apply emits_bind; [apply emits_emit, P_info|intros _].
  apply emits_bind.
  { apply emits_awaitAll_filed. intros d. unfold Action.startTask.
    destruct (startsWith (name d) "."); [apply emits_ret|].
    destruct (negb (isFile d)); [|apply emits_ret].
    apply emits_bind; [|intros _; apply emits_ret].
    destruct (isDirectory d); [|apply emits_ret].
    apply emits_bind; [apply emits_call|intros names].
    apply emits_bind; [apply emits_writeFile, P_ls|intros _].
    apply emits_emit, P_info. }
  intros _.
  apply emits_bind; [apply emits_call|intros ctx].
  apply emits_bind; [apply emits_emit, P_info|intros _].
  apply emits_bind; [apply emits_emit, P_info|intros _].
  apply emits_bind; [now apply emits_silent|intros evs].
  apply emits_bind; [apply emits_writeFile, P_index|intros _].
  apply emits_bind; [now apply emits_silent|intros n].
  apply emits_verdict.
Qed.

Lemma emits_Main_run :
  (forall names, P (fs_writeFileSync ".ls" (Listing names))) ->
  emits (H := H) P Main.run.
Proof.
  intros P_ls. apply emits_topLevel. unfold Main.body.
  apply emits_bind; [apply emits_emit, P_info|intros _].
  apply emits_bind; [apply emits_call|intros files].
  apply emits_bind; [apply emits_emit, P_info|intros _].
  apply emits_bind.
  { apply emits_awaitAll_filed. intros d. unfold Main.startTask.
    destruct (negb (isFile d)); [|apply emits_ret].
    apply emits_bind; [|intros _; apply emits_ret].
    destruct (isDirectory d); [|apply emits_ret].
    apply emits_bind; [apply emits_call|intros names].
    apply emits_writeFile, P_ls. }
  intros _.
  apply emits_bind; [now apply emits_silent|intros n].
  apply emits_verdict.
Qed.

End RunTrace.

(** Every diagnostic of [run], in both revisions, names a file. *)
Theorem run_diagnostics_filed {H : Host} (s : RunState H) :
  (exists tr, trace (snd (Action.run s)) = trace s ++ tr /\ Forall filed tr)
  /\ (exists tr, trace (snd (Main.run s)) = trace s ++ tr /\ Forall filed tr).
Proof.
  split.
  - apply (emits_Action_run filed); cbn; auto.
  - apply (emits_Main_run filed); cbn; auto.
Qed.

(** X12: every listing that [run] of the revision with the manifest writes
    goes to [.ls] under some path and holds no hidden name. *)
Theorem run_listings_tidy {H : Host} (s : RunState H) :
  exists tr,
    trace (snd (Action.run s)) = trace s ++ tr /\ Forall (tidyListing H) tr.
Proof.
  apply (emits_Action_run (tidyListing H)); cbn; auto.
  intros q names. split; [now exists q|].
  apply Forall_forall. intros x Hx. apply filter_In in Hx.
  destruct Hx as [_ Hx]. now destruct (startsWith x ".").
Qed.

(** X13: [run] of [src/main.ts] writes every listing to the one file [.ls],
    whatever the directory, and never writes a manifest. *)
Theorem main_listings_flat {H : Host} (s : RunState H) :
  exists tr,
    trace (snd (Main.run s)) = trace s ++ tr /\ Forall flatListing tr.
Proof. apply (emits_Main_run flatListing); cbn; auto. Qed.

(** ** A file that cannot be read *)

Section AbortFacts.

Context {H : Host}.

Lemma emitsBeforeThrow_writeFile (P : Effect -> Prop) path data :
  emitsBeforeThrow (H := H) P (writeFile path data).
Proof.
  intros s e s' E. unfold writeFile in E.
  destruct (writeFileSync H path data) as [e0|].
  - injection E as _ <-. exists []. now rewrite app_nil_r.
  - discriminate.
Qed.

Lemma emitsBeforeThrow_then_returns (P : Effect -> Prop) {A B}
    (m : M H A) (k : A -> M H B) :
  emitsBeforeThrow P m ->
  (forall a s, exists b s', k a s = (inr b, s')) ->
  emitsBeforeThrow P (bind m k).
Proof.
  intros Hm Hk s e s' E. unfold bind in E.
  destruct (m s) as [[e1|a] s1] eqn:E1.
  - injection E as <- <-. exact (Hm s e1 s1 E1).
  - destruct (Hk a s1) as (b & s2 & E2). congruence.
Qed.

(** When the body of [run] throws, no manifest has been written. *)
Lemma Action_body_throws_without_manifest :
  emitsBeforeThrow (H := H) (fun e => isManifestWrite e = false) Action.body.
Proof.
  set (P := fun e => isManifestWrite e = false).
  assert (Hi : forall m, P (core_info m)) by reflexivity.
  assert (He : forall m p, P (core_error m p)) by reflexivity.
  assert (Hl : forall p names, P (fs_writeFileSync p (Listing names)))
    by reflexivity.
  unfold Action.body.
  apply emitsBeforeThrow_bind; [apply emits_emit, Hi|intros _].
  apply emitsBeforeThrow_bind; [apply emits_call|intros files].
  apply emitsBeforeThrow_bind; [apply emits_emit, Hi|intros _].
  apply emitsBeforeThrow_bind;
    [apply emits_awaitAll; auto using emits_Action_startTask|intros _].
  apply emitsBeforeThrow_bind; [apply emits_call|intros ctx].
  apply emitsBeforeThrow_bind; [apply emits_emit, Hi|intros _].
  apply emitsBeforeThrow_bind; [apply emits_emit, Hi|intros _].
  apply emitsBeforeThrow_bind; [now apply emits_silent|intros evs].
  apply emitsBeforeThrow_then_returns; [apply emitsBeforeThrow_writeFile|].
  intros _ s. unfold bind, getErrorCount. apply verdict_returns.
Qed.

Lemma resumeTask_unreadable p e (s : RunState H) :
  readFile H p = inl e -> resumeTask p s = (inl e, s).
Proof. intros Hr. unfold resumeTask, bind, call. now rewrite Hr. Qed.

Lemma forEach_resume_throws ps p e0 :
  In p ps -> readFile H p = inl e0 ->
  forall s : RunState H, exists e s', forEach ps resumeTask s = (inl e, s').
Proof.
  intros Hin Hr. induction ps as [|q ps IH]; [destruct Hin|].
  intros s. cbn [forEach]. unfold bind.
  destruct (resumeTask q s) as [[e|[]] s1] eqn:E1; [now exists e, s1|].
  destruct Hin as [->|Hin].
  - rewrite (resumeTask_unreadable _ _ _ Hr) in E1. discriminate.
  - apply (IH Hin).
Qed.

Lemma awaitAll_throws files d e0 (s : RunState H) :
  In d files -> awaited d = true -> readFile H (pathOf H d) = inl e0 ->
  (forall l, Permutation (settleOrder H l) l) ->
  exists e s', awaitAll Action.startTask files s = (inl e, s').
Proof.
  intros Hd Haw Hr Hperm. unfold awaitAll.
  destruct (Action_startAll (H := H) files s) as [_ Hpend].
  destruct (startAll Action.startTask files s) as [[rej pend] s1].
  cbn [fst snd] in Hpend.
  destruct rej as [|e rej]; [|now exists e, s1].
  apply (forEach_resume_throws _ (pathOf H d) e0); [|exact Hr].
  apply (Permutation_in _ (Permutation_sym (Hperm pend))).
  rewrite Hpend. apply in_map. apply filter_In. now split.
Qed.

End AbortFacts.

(** When a file of the walk that is not skipped cannot be read, the body of
    [run] throws, no manifest is written up to there, and [run] resolves in
    the outermost handler. *)
Theorem unreadable_file_aborts_run {H : Host} files d e0 :
  globSyncDirents H (eventsPath H) = inr files ->
  In d files -> awaited d = true -> readFile H (pathOf H d) = inl e0 ->
  (forall l, Permutation (settleOrder H l) l) ->
  exists e s',
    Action.body (H := H) initial = (inl e, s')
    /\ Forall (fun x => isManifestWrite x = false) (trace s')
    /\ trace (snd (Action.run (H := H) initial))
       = trace s' ++ match e with
                     | ErrorObject m => [core_setFailed m]
                     | NonError _ => []
                     end.
Proof.
  intros Hglob Hd Haw Hr Hperm.
  assert (Hthrow : exists e s', Action.body (H := H) initial = (inl e, s')).
  { unfold Action.body, bind, info, emit at 1, call.
    rewrite Hglob. cbn [ret]. unfold emit at 1.
    cbn [errorCount events trace].
    match goal with
    | |- context [awaitAll Action.startTask files ?s0] =>
        destruct (awaitAll_throws files d e0 s0 Hd Haw Hr Hperm)
          as (e & s' & E)
    end.
    rewrite E. now exists e, s'. }
  destruct Hthrow as (e & s' & E). exists e, s'. split; [exact E|].
  destruct (Action_body_throws_without_manifest initial e s' E)
    as (tr & Etr & F).
  cbn [trace initial app] in Etr. split; [now rewrite Etr|].
  unfold Action.run, topLevel, tryCatch. rewrite E.
  destruct e; cbn; [reflexivity|now rewrite app_nil_r].
Qed.

Lemma unreadable_file_aborts_run_witness :
  exists e s',
    Action.body (H := Demo.unreadable) initial = (inl e, s')
    /\ Forall (fun x => isManifestWrite x = false) (trace s')
    /\ trace (snd (Action.run (H := Demo.unreadable) initial))
       = trace s' ++ match e with
                     | ErrorObject m => [core_setFailed m]
                     | NonError _ => []
                     end.
Proof.
  apply (unreadable_file_aborts_run (H := Demo.unreadable) Demo.goneEntries
           (mkDirent "gone.json" "a" true false) (ErrorObject "ENOENT")).
  - reflexivity.
  - right. now left.
  - reflexivity.
  - reflexivity.
  - intros l. apply Permutation_sym, Permutation_rev.
Defined.

Example demo_unreadable_trace :
  trace (snd (Action.run (H := Demo.unreadable) initial))
  = [core_info "@deniz-blue/action-events-repo is running";
     core_info "Found 2 events.";
     core_setFailed "ENOENT"].
Proof. vm_compute. reflexivity. Qed.

(** ** What the runs await and count *)

Section AwaitFacts.

Context {H : Host}.

Variable startTask : Dirent -> M H (option string).
Variable aw : Dirent -> bool.

Hypothesis startTask_cases : forall d (s : RunState H),
  errorCount (snd (startTask d s)) = errorCount s
  /\ events (snd (startTask d s)) = events s
  /\ (aw d = true -> startTask d s = (inr (Some (pathOf H d)), s))
  /\ (aw d = false -> forall p, fst (startTask d s) <> inr (Some p)).

Lemma startAll_awaits files (s : RunState H) :
  errorCount (snd (startAll startTask files s)) = errorCount s
  /\ events (snd (startAll startTask files s)) = events s
  /\ snd (fst (startAll startTask files s))
     = map (pathOf H) (filter aw files).
Proof.
  revert s. induction files as [|d files IH]; intros s; cbn [startAll].
  - now repeat split.
  - destruct (startTask_cases d s) as (Hc & Hev & Hyes & Hno).
    destruct (startTask d s) as [r s1] eqn:E1. cbn [snd fst] in *.
    destruct (IH s1) as (IHc & IHev & IHp).
    destruct (startAll startTask files s1) as [[rej pend] s2].
    cbn [snd fst filter] in *.
    destruct (aw d) eqn:Ha.
    + specialize (Hyes eq_refl). injection Hyes as -> ->.
      cbn [snd fst map]. repeat split; [congruence|congruence|now rewrite IHp].
    + specialize (Hno eq_refl).
      destruct r as [e|[p|]]; cbn [snd fst]; [| exfalso; now apply (Hno p) |];
        repeat split; congruence.
Qed.

(** The state after the tasks, when none is rejected: one failure counted
    for each awaited path that does not validate, and the valid paths added
    to the events in the order in which the reads completed. *)
Lemma awaitAll_result files (s s2 : RunState H) :
  NoDup (map (pathOf H) (filter aw files)) ->
  (forall l, Permutation (settleOrder H l) l) ->
  events s = [] ->
  awaitAll startTask files s = (inr tt, s2) ->
  errorCount s2
  = errorCount s
    + Z.of_nat (List.length
                  (filter (fun p => negb (validates H p))
                     (map (pathOf H) (filter aw files))))
  /\ map fst (events s2)
     = filter (validates H) (settleOrder H (map (pathOf H) (filter aw files))).
Proof.
  intros Hnd Hperm Hev Hawait. unfold awaitAll in Hawait.
  destruct (startAll_awaits files s) as (Hc & Hev1 & Hpend).
  destruct (startAll startTask files s) as [[rej pend] s1].
  cbn [fst snd] in Hc, Hev1, Hpend.
  destruct rej as [|e rej]; [|discriminate].
  split.
  - rewrite (forEach_resume_errorCount _ _ _ Hawait), Hc.
    now rewrite (filter_length_Permutation _ _ _ (Hperm pend)), Hpend.
  - rewrite <- Hpend.
    assert (Hnd' : NoDup (settleOrder H pend)).
    { apply (Permutation_NoDup (Permutation_sym (Hperm pend))).
      now rewrite Hpend. }
    assert (Hgen : forall ps (s s' : RunState H),
               NoDup ps ->
               (forall p, In p ps -> ~ In p (map fst (events s))) ->
               forEach ps resumeTask s = (inr tt, s') ->
               map fst (events s')
               = map fst (events s) ++ filter (validates H) ps).
    { clear. induction ps as [|p ps IH]; intros s s' Hnd Hfresh; cbn [forEach].
      - intros E. injection E as <-. cbn. now rewrite app_nil_r.
      - unfold bind. destruct (resumeTask p s) as [[e|[]] s1] eqn:E1;
          [discriminate|].
        intros E2. inversion Hnd as [|x l Hnotin Hnd']; subst.
        assert (K1 : map fst (events s1)
                     = map fst (events s)
                       ++ (if validates H p then [p] else [])).
        { revert E1. unfold validates.
          destruct (readFile H p) as [e|content] eqn:Hr.
          { rewrite (resumeTask_unreadable _ _ _ Hr). discriminate. }
          rewrite (resumeTask_read _ _ _ Hr).
          destruct (JSON_parse H content) as [j|] eqn:Hj.
          - destruct (safeParse H j) as [data|issues] eqn:Hv.
            + rewrite (validateContent_success _ _ _ _ _ Hj Hv). intros E.
              injection E as <-. cbn [events].
              assert (Hf : ~ In p (map fst (events s)))
                by (apply Hfresh; now left).
              clear -Hf. induction (events s) as [|[k v] m IHm];
                cbn [Map_set map fst app]; [reflexivity|].
              destruct (String.eqb_spec k p) as [->|Hne].
              * exfalso. apply Hf. now left.
              * cbn [map fst]. f_equal. apply IHm. intros Hin. apply Hf.
                now right.
            + rewrite (validateContent_schema_failure _ _ _ _ _ Hj Hv).
              intros E.
              pose proof (annotateIssues_state p content issues
                            (mkState (errorCount s + 1) (events s) (trace s)))
                as Hst.
              rewrite E in Hst. cbn [snd events] in Hst.
              now rewrite Hst, app_nil_r.
          - rewrite (validateContent_parse_failure _ _ _ Hj). intros E.
            injection E as <-. cbn [events]. now rewrite app_nil_r. }
        rewrite (IH s1 s' Hnd'); [|intros q Hq|exact E2].
        + rewrite K1, <- app_assoc. cbn [filter].
          now destruct (validates H p).
        + rewrite K1, in_app_iff. intros [Hin|Hin].
          * apply (Hfresh q); [now right|exact Hin].
          * destruct (validates H p); [|destruct Hin].
            destruct Hin as [->|[]]. contradiction. }
    rewrite (Hgen _ _ _ Hnd' ltac:(rewrite Hev1, Hev; intros p _ []) Hawait).
    now rewrite Hev1, Hev.
Qed.

End AwaitFacts.

Section CountMore.

Context {H : Host}.

Lemma awaitAll_counts (startTask : Dirent -> M H (option string)) aw files
    (s s2 : RunState H) :
  (forall d (s : RunState H),
      errorCount (snd (startTask d s)) = errorCount s
      /\ events (snd (startTask d s)) = events s
      /\ (aw d = true -> startTask d s = (inr (Some (pathOf H d)), s))
      /\ (aw d = false -> forall p, fst (startTask d s) <> inr (Some p))) ->
  (forall l, Permutation (settleOrder H l) l) ->
  awaitAll startTask files s = (inr tt, s2) ->
  errorCount s2
  = errorCount s
    + Z.of_nat (List.length
                  (filter (fun d => aw d && negb (validates H (pathOf H d)))
                     files)).
Proof.
  intros Hcases Hperm Hawait. unfold awaitAll in Hawait.
  destruct (startAll_awaits startTask aw Hcases files s) as (Hc & _ & Hpend).
  destruct (startAll startTask files s) as [[rej pend] s1].
  cbn [fst snd] in Hc, Hpend.
  destruct rej as [|e rej]; [|discriminate].
  rewrite (forEach_resume_errorCount _ _ _ Hawait), Hc.
  rewrite (filter_length_Permutation _ _ _ (Hperm pend)), Hpend.
  f_equal. f_equal. clear.
  induction files as [|d files IH]; [reflexivity|].
  cbn [filter]. destruct (aw d); cbn [andb map filter]; [|exact IH].
  destruct (validates H (pathOf H d)); cbn [negb List.length]; now rewrite IH.
Qed.

Lemma Action_startTask_awaits d (s : RunState H) :
  errorCount (snd (Action.startTask d s)) = errorCount s
  /\ events (snd (Action.startTask d s)) = events s
  /\ (awaited d = true ->
      Action.startTask d s = (inr (Some (pathOf H d)), s))
  /\ (awaited d = false ->
      forall p, fst (Action.startTask d s) <> inr (Some p)).
Proof.
  split; [apply Action_startTask_errorCount|apply Action_startTask_cases].
Qed.

Lemma Main_startTask_awaits d (s : RunState H) :
  errorCount (snd (Main.startTask d s)) = errorCount s
  /\ events (snd (Main.startTask d s)) = events s
  /\ (isFile d = true -> Main.startTask d s = (inr (Some (pathOf H d)), s))
  /\ (isFile d = false -> forall p, fst (Main.startTask d s) <> inr (Some p)).
Proof.
  unfold Main.startTask, pathOf.
  destruct (isFile d); cbn [negb].
  { repeat split. discriminate. }
  unfold bind, call, writeFile, emit.
  destruct (isDirectory d).
  - destruct (readdirSync H _) as [e|names]; cbn [throw ret].
    { repeat split; [discriminate|]. intros _ p. discriminate. }
    destruct (writeFileSync H _ _) as [e|]; cbn [throw ret].
    { repeat split; [discriminate|]. intros _ p. discriminate. }
    repeat split; [discriminate|]. intros _ p. discriminate.
  - cbn [ret]. repeat split; [discriminate|]. intros _ p. discriminate.
Qed.

Lemma filter_partition_length {A} (f : A -> bool) (l : list A) :
  (List.length (filter f l) + List.length (filter (fun x => negb (f x)) l)
   = List.length l)%nat.
Proof.
  induction l as [|x l IH]; [reflexivity|].
  cbn [filter]. destruct (f x); cbn [negb List.length]; lia.
Qed.

End CountMore.

(** X15: the manifest lists the valid files in the order in which their
    reads completed, each with its url, when the awaited paths are
    distinct. *)
Theorem manifest_in_completion_order {H : Host} files owner repo
    (s' : RunState H) :
  globSyncDirents H (eventsPath H) = inr files ->
  context_repo H = inr (owner, repo) ->
  NoDup (map (pathOf H) (filter awaited files)) ->
  (forall l, Permutation (settleOrder H l) l) ->
  Action.body initial = (inr tt, s') ->
  exists before last,
    trace s'
    = before
      ++ [fs_writeFileSync ".index.json"
            (Manifest (owner ++ "/" ++ repo)%string
               (map (fun p =>
                       (p, (("https://" ++ owner ++ ".github.io/" ++ repo)
                            ++ "/events/" ++ p)%string))
                  (filter (validates H)
                     (settleOrder H
                        (map (pathOf H) (filter awaited files))))));
          last].
Proof.
  intros Hglob Hctx Hnd Hperm Hrun.
  apply Action_body_returns in Hrun.
  destruct Hrun as (files' & s2 & ctx & Hglob' & Hawait & Hctx' & ->).
  assert (files' = files) by congruence. subst files'.
  assert (ctx = (owner, repo)) by congruence. subst ctx. cbn [fst snd].
  destruct (awaitAll_result Action.startTask awaited Action_startTask_awaits
              files (opened initial files) s2 Hnd Hperm eq_refl Hawait)
    as [_ Hkeys].
  cbn [trace]. eexists (trace s2 ++ [_; _]), _.
  rewrite <- app_assoc. cbn [app]. rewrite <- Hkeys, map_map. reflexivity.
Qed.

Lemma manifest_in_completion_order_witness :
  exists before last,
    trace (snd (Action.body (H := Demo.plain) initial))
    = before
      ++ [fs_writeFileSync ".index.json"
            (Manifest ("owner" ++ "/" ++ "repo")%string
               (map (fun p =>
                       (p, (("https://" ++ "owner" ++ ".github.io/" ++ "repo")
                            ++ "/events/" ++ p)%string))
                  (filter (validates Demo.plain)
                     (settleOrder Demo.plain
                        (map (pathOf Demo.plain)
                           (filter awaited Demo.entries))))));
          last].
Proof.
  apply (manifest_in_completion_order (H := Demo.plain) Demo.entries
           "owner" "repo" (snd (Action.body (H := Demo.plain) initial))).
  - reflexivity.
  - reflexivity.
  - repeat constructor; cbn; intuition discriminate.
  - intros l. apply Permutation_sym, Permutation_rev.
  - vm_compute. reflexivity.
Defined.

(** X16: when the body of [run] ends without an exception and the awaited
    paths are distinct, every awaited file is either an entry of the
    manifest or one of the failures counted. *)
Theorem run_accounts_for_every_file {H : Host} files (s' : RunState H) :
  globSyncDirents H (eventsPath H) = inr files ->
  NoDup (map (pathOf H) (filter awaited files)) ->
  (forall l, Permutation (settleOrder H l) l) ->
  Action.body initial = (inr tt, s') ->
  exists repository evs,
    In (fs_writeFileSync ".index.json" (Manifest repository evs)) (trace s')
    /\ errorCount s' + Z.of_nat (List.length evs)
       = Z.of_nat (List.length (filter awaited files)).
Proof.
  intros Hglob Hnd Hperm Hrun.
  apply Action_body_returns in Hrun.
  destruct Hrun as (files' & s2 & ctx & Hglob' & Hawait & _ & ->).
  assert (files' = files) by congruence. subst files'.
  destruct (awaitAll_result Action.startTask awaited Action_startTask_awaits
              files (opened initial files) s2 Hnd Hperm eq_refl Hawait)
    as [Hcount Hkeys].
  cbn [trace errorCount]. do 2 eexists. split.
  - apply in_or_app. right. right. right. left. reflexivity.
  - rewrite length_map, <- (length_map fst), Hkeys, Hcount.
    rewrite (filter_length_Permutation _ _ _ (Hperm _)).
    pose proof (filter_partition_length (validates H)
                  (map (pathOf H) (filter awaited files))) as Hp.
    rewrite length_map in Hp. cbn [opened errorCount initial]. lia.
Qed.

Lemma run_accounts_for_every_file_witness :
  exists repository evs,
    In (fs_writeFileSync ".index.json" (Manifest repository evs))
      (trace (snd (Action.body (H := Demo.plain) initial)))
    /\ errorCount (snd (Action.body (H := Demo.plain) initial))
       + Z.of_nat (List.length evs)
       = Z.of_nat (List.length (filter awaited Demo.entries)).
Proof.
  apply (run_accounts_for_every_file (H := Demo.plain) Demo.entries
           (snd (Action.body (H := Demo.plain) initial))).
  - reflexivity.
  - repeat constructor; cbn; intuition discriminate.
  - intros l. apply Permutation_sym, Permutation_rev.
  - vm_compute. reflexivity.
Defined.

(** X17: [run] of [src/main.ts] skips no file: when its body ends without an
    exception, [errorCount] is the number of files of the walk, hidden ones
    included, that do not validate. *)
Theorem main_counts_hidden_files {H : Host} files (s' : RunState H) :
  globSyncDirents H (eventsPath H) = inr files ->
  (forall l, Permutation (settleOrder H l) l) ->
  Main.body initial = (inr tt, s') ->
  errorCount s' = Z.of_nat (List.length (filter (failingFile H) files)).
Proof.
  intros Hglob Hperm Hrun.
  apply Main_body_returns in Hrun.
  destruct Hrun as (files' & s2 & Hglob' & Hawait & ->).
  assert (files' = files) by congruence. subst files'. cbn [errorCount].
  rewrite (awaitAll_counts Main.startTask isFile files _ _
             Main_startTask_awaits Hperm Hawait).
  reflexivity.
Qed.

Lemma main_counts_hidden_files_witness :
  errorCount (snd (Main.body (H := Demo.withDraft) initial)) = 1.
Proof.
  apply (main_counts_hidden_files (H := Demo.withDraft) Demo.draftEntries
           (snd (Main.body (H := Demo.withDraft) initial))).
  - reflexivity.
  - intros l. apply Permutation_sym, Permutation_rev.
  - vm_compute. reflexivity.
Defined.

Example demo_draft_skipped_by_action :
  errorCount (snd (Action.body (H := Demo.withDraft) initial)) = 0.
Proof. vm_compute. reflexivity. Qed.

(** ** An empty walk *)

(** X18: when the walk finds nothing, both revisions of [run] succeed: the
    one with the manifest writes a manifest without entries, and both end
    with the completion message. *)
Theorem empty_walk_completes {H : Host} owner repo :
  globSyncDirents H (eventsPath H) = inr [] ->
  settleOrder H [] = [] ->
  context_repo H = inr (owner, repo) ->
  writeFileSync H ".index.json" (Manifest (owner ++ "/" ++ repo)%string [])
  = None ->
  Action.run (H := H) initial
  = (inr tt,
     mkState 0 []
       [core_info "@deniz-blue/action-events-repo is running";
        core_info "Found 0 events.";
        core_info ("Repository: " ++ owner ++ "/" ++ repo)%string;
        core_info ("Pages URL: " ++ "https://" ++ owner ++ ".github.io/"
                   ++ repo)%string;
        fs_writeFileSync ".index.json"
          (Manifest (owner ++ "/" ++ repo)%string []);
        core_info "Complete"])
  /\ Main.run (H := H) initial
     = (inr tt,
        mkState 0 []
          [core_info "@deniz-blue/action-events-repo is running";
           core_info "Found 0 events.";
           core_info "Complete"]).
Proof.
  intros Hglob Hsettle Hctx Hwrite. split.
  - unfold Action.run, topLevel, tryCatch, Action.body, bind, info, emit, call,
      awaitAll, getEvents, getErrorCount, writeFile.
    rewrite Hglob. cbn [ret startAll]. rewrite Hsettle. cbn [forEach ret].
    rewrite Hctx.
    cbn [ret fst snd events map trace errorCount initial app].
    rewrite Hwrite. reflexivity.
  - unfold Main.run, topLevel, tryCatch, Main.body, bind, info, emit, call,
      awaitAll, getErrorCount.
    rewrite Hglob. cbn [ret startAll]. rewrite Hsettle. reflexivity.
Qed.

Lemma empty_walk_completes_witness :
  failed (trace (snd (Action.run (H := Demo.empty) initial))) = false.
Proof.
  rewrite (proj1 (empty_walk_completes (H := Demo.empty) "owner" "repo"
                    eq_refl eq_refl eq_refl eq_refl)).
  reflexivity.
Defined.

(** ** The whole of [checkEvents] *)

Section TaskMore.

Context {H : Host}.

Lemma validates_cases p :
  (validates H p = true
   /\ exists content json data,
        readFile H p = inr content /\ JSON_parse H content = Some json
        /\ safeParse H json = Success data)
  \/ (validates H p = false
      /\ ((exists e, readFile H p = inl e)
          \/ (exists content, readFile H p = inr content
                              /\ JSON_parse H content = None)
          \/ (exists content json issues,
                readFile H p = inr content /\ JSON_parse H content = Some json
                /\ safeParse H json = Failure issues))).
Proof.
  unfold validates.
  destruct (readFile H p) as [e|content]; [right; split; eauto|].
  destruct (JSON_parse H content) as [j|] eqn:Hj;
    [|right; split; [reflexivity|right; left; eauto]].
  destruct (safeParse H j) as [data|issues] eqn:Hv.
  - left. split; [reflexivity|]. now exists content, j, data.
  - right. split; [reflexivity|]. right. right. now exists content, j, issues.
Qed.

(** The task of a file does not depend on the state, and logs the
    validation of an accepted file. *)
Lemma checkFile_result dir file (s : RunState H) :
  Task.checkFile dir file s
  = (reasonOf H dir file,
     mkState (errorCount s) (events s)
       (trace s
        ++ if accepted H dir file
           then [core_info ("Validated event: " ++ join H dir file)%string]
           else []))
  /\ (reasonOf H dir file = None
      <-> rejected H dir file = false).
Proof.
  unfold reasonOf, Task.checkFile, accepted, rejected, validates.
  destruct (startsWith file "."); cbn [negb andb fst].
  { rewrite app_nil_r. split; [now destruct s|now split]. }
  destruct (readFile H (join H dir file)) as [e|content]; cbn [fst negb].
  { rewrite app_nil_r. split; [now destruct s|split; discriminate]. }
  destruct (JSON_parse H content) as [j|]; cbn [fst negb].
  - destruct (safeParse H j) as [data|issues]; cbn [fst negb].
    + split; [reflexivity|now split].
    + rewrite app_nil_r. split; [now destruct s|split; discriminate].
  - rewrite app_nil_r. split; [now destruct s|split; discriminate].
Qed.

End TaskMore.

Section TaskWhole.

Context {H : Host}.

Lemma settleAll_result dir files (s : RunState H) :
  Task.settleAll dir files s
  = (reasons H dir files,
     mkState (errorCount s) (events s)
       (trace s
        ++ map (fun f => core_info ("Validated event: " ++ join H dir f)%string)
             (filter (accepted H dir) files))).
Proof.
  revert s. induction files as [|f files IH]; intros s;
    cbn [Task.settleAll reasons flat_map filter map].
  - rewrite app_nil_r. now destruct s.
  - destruct (checkFile_result dir f s) as [-> _]. rewrite IH.
    cbn [errorCount events trace]. fold (reasons H dir files).
    rewrite <- app_assoc. f_equal.
    + now destruct (reasonOf H dir f).
    + now destruct (accepted H dir f).
Qed.

Lemma reasons_length dir files :
  List.length (reasons H dir files)
  = List.length (filter (rejected H dir) files).
Proof.
  induction files as [|f files IH]; [reflexivity|].
  cbn [reasons flat_map filter]. fold (reasons H dir files).
  rewrite length_app, IH.
  destruct (checkFile_result (H := H) dir f initial) as [_ Hiff].
  destruct (reasonOf H dir f) as [r|], (rejected H dir f); cbn [List.length];
    try reflexivity.
  - destruct Hiff as [_ Hiff]. specialize (Hiff eq_refl). discriminate.
  - destruct Hiff as [Hiff _]. specialize (Hiff eq_refl). discriminate.
Qed.

Lemma annotate_result r (s : RunState H) :
  Task.annotate r s
  = (inr tt,
     mkState (errorCount s) (events s) (trace s ++ diagnosticsOf H r)).
Proof.
  destruct r as [path issues content|path|e];
    cbn [Task.annotate diagnosticsOf]; try reflexivity.
  unfold annotateIssues. destruct (parseTree H content) as [json|].
  - apply forEach_emit.
  - unfold ret. rewrite app_nil_r. now destruct s.
Qed.

Lemma forEach_annotate rs (s : RunState H) :
  forEach rs Task.annotate s
  = (inr tt,
     mkState (errorCount s) (events s)
       (trace s ++ flat_map (diagnosticsOf H) rs)).
Proof.
  revert s. induction rs as [|r rs IH]; intros s; cbn [forEach flat_map].
  - unfold ret. rewrite app_nil_r. now destruct s.
  - unfold bind. rewrite annotate_result, IH. cbn [errorCount events trace].
    now rewrite <- app_assoc.
Qed.

(** Everything that [checkEvents] does once the walk has succeeded: the
    validations, then the diagnostics of the rejected tasks, then the summary
    when there is a rejection. *)
Lemma checkEvents_result dir files (s : RunState H) :
  globSync H dir = inr files ->
  Task.checkEvents dir s
  = (inr tt,
     mkState (errorCount s) (events s)
       (trace s
        ++ map (fun f => core_info ("Validated event: " ++ join H dir f)%string)
             (filter (accepted H dir) files)
        ++ flat_map (diagnosticsOf H) (reasons H dir files)
        ++ match reasons H dir files with
           | [] => []
           | _ :: _ =>
               [core_setFailed
                  ("Validation failed for "
                   ++ showZ (Z.of_nat (List.length (reasons H dir files)))
                   ++ " file(s)!")%string]
           end)).
Proof.
  intros Hglob. unfold Task.checkEvents, bind, call. rewrite Hglob. cbn [ret].
  rewrite settleAll_result, forEach_annotate. cbn [errorCount events trace].
  destruct (reasons H dir files) as [|r rs] eqn:E.
  - cbn. now rewrite !app_nil_r.
  - replace (Z.of_nat (List.length (r :: rs)) >? 0) with true
      by (symmetry; apply Z.gtb_lt; cbn [List.length]; lia).
    unfold setFailed, emit. cbn [errorCount events trace].
    now rewrite <- !app_assoc.
Qed.

Lemma diagnosticsOf_diagnostics r : Forall (fun e => isDiagnostic e = true) (diagnosticsOf H r).
Proof.
  destruct r as [path issues content|path|e]; cbn [diagnosticsOf].
  - destruct (parseTree H content); [|constructor].
    apply Forall_forall. intros e He. apply in_map_iff in He.
    now destruct He as (i & <- & _).
  - now repeat constructor.
  - now repeat constructor.
Qed.

End TaskWhole.


(** X20: once the walk has succeeded, [checkEvents] calls [core.setFailed]
    exactly when some file that is not skipped fails to read, parse or
    validate, as its last call, with the number of those files. *)
Theorem checkEvents_counts_rejected {H : Host} dir files (s : RunState H) :
  globSync H dir = inr files ->
  exists tr,
    trace (snd (Task.checkEvents dir s)) = trace s ++ tr
    /\ (filter (rejected H dir) files = [] -> failed tr = false)
    /\ (filter (rejected H dir) files <> [] ->
        exists tr',
          failed tr' = false
          /\ tr = tr' ++ [core_setFailed
                            ("Validation failed for "
                             ++ showZ (Z.of_nat
                                         (List.length
                                            (filter (rejected H dir) files)))
                             ++ " file(s)!")%string]).
Proof.
  intros Hglob. rewrite (checkEvents_result dir files s Hglob). cbn [snd trace].
  eexists. split; [reflexivity|].
  assert (Hquiet : failed
            (map (fun f => core_info ("Validated event: " ++ join H dir f)%string)
               (filter (accepted H dir) files)
             ++ flat_map (diagnosticsOf H) (reasons H dir files)) = false).
  { rewrite failed_app. apply orb_false_iff. split.
    - induction (filter (accepted H dir) files); [reflexivity|assumption].
    - unfold failed. apply Bool.not_true_is_false. intros Hex.
      apply existsb_exists in Hex. destruct Hex as (e & Hin & He).
      apply in_flat_map in Hin. destruct Hin as (r & _ & Hin).
      pose proof (diagnosticsOf_diagnostics (H := H) r) as F.
      rewrite Forall_forall in F. specialize (F e Hin).
      now destruct e. }
  pose proof (reasons_length (H := H) dir files) as Hlen.
  split.
  - intros Hnone. rewrite Hnone in Hlen.
    destruct (reasons H dir files); [|discriminate].
    cbn [flat_map app] in *. exact Hquiet.
  - intros Hsome.
    destruct (reasons H dir files) as [|r rs] eqn:E.
    + destruct (filter (rejected H dir) files); [contradiction|discriminate].
    + eexists. split; [exact Hquiet|].
      rewrite <- Hlen. now rewrite app_assoc.
Qed.

(** X21: the messages of [checkEvents] come in three groups: one validation
    message per file that is not skipped and validates, then all the
    diagnostics, then at most the summary. *)
Theorem checkEvents_order {H : Host} dir files (s : RunState H) :
  globSync H dir = inr files ->
  exists infos diags rest,
    trace (snd (Task.checkEvents dir s)) = trace s ++ infos ++ diags ++ rest
    /\ Forall (fun e => isInfo e = true) infos
    /\ List.length infos = List.length (filter (accepted H dir) files)
    /\ Forall (fun e => isDiagnostic e = true) diags
    /\ (rest = [] \/ exists m, rest = [core_setFailed m]).
Proof.
  intros Hglob. rewrite (checkEvents_result dir files s Hglob). cbn [snd trace].
  do 3 eexists. split; [reflexivity|]. split; [|split; [|split]].
  - apply Forall_forall. intros e He. apply in_map_iff in He.
    now destruct He as (f & <- & _).
  - apply length_map.
  - apply Forall_forall. intros e He. apply in_flat_map in He.
    destruct He as (r & _ & He).
    pose proof (diagnosticsOf_diagnostics (H := H) r) as F.
    rewrite Forall_forall in F. now apply F.
  - destruct (reasons H dir files); [now left|right; eauto].
Qed.


Lemma checkEvents_counts_rejected_witness :
  exists tr,
    trace (snd (Task.checkEvents (H := Demo.plain) "a" initial))
    = trace (H := Demo.plain) initial ++ tr
    /\ (filter (rejected Demo.plain "a") ["b.json"; "broken.json"; "wrong.json"]
        = [] -> failed tr = false)
    /\ (filter (rejected Demo.plain "a") ["b.json"; "broken.json"; "wrong.json"]
        <> [] ->
        exists tr',
          failed tr' = false
          /\ tr = tr' ++ [core_setFailed
                            ("Validation failed for "
                             ++ showZ (Z.of_nat
                                         (List.length
                                            (filter (rejected Demo.plain "a")
                                               ["b.json"; "broken.json";
                                                "wrong.json"])))
                             ++ " file(s)!")%string]).
Proof.
  apply (checkEvents_counts_rejected (H := Demo.plain) "a"
           ["b.json"; "broken.json"; "wrong.json"] initial).
  reflexivity.
Defined.

Lemma checkEvents_order_witness :
  exists infos diags rest,
    trace (snd (Task.checkEvents (H := Demo.plain) "a" initial))
    = trace (H := Demo.plain) initial ++ infos ++ diags ++ rest
    /\ Forall (fun e => isInfo e = true) infos
    /\ List.length infos
       = List.length (filter (accepted Demo.plain "a")
                        ["b.json"; "broken.json"; "wrong.json"])
    /\ Forall (fun e => isDiagnostic e = true) diags
    /\ (rest = [] \/ exists m, rest = [core_setFailed m]).
Proof.
  apply (checkEvents_order (H := Demo.plain) "a"
           ["b.json"; "broken.json"; "wrong.json"] initial).
  reflexivity.
Defined.

Example demo_checkEvents_trace :
  trace (snd (Task.checkEvents (H := Demo.plain) "a" initial))
  = [core_info "Validated event: a/b.json";
     core_error "Invalid JSON file!" (fileOnly "a/broken.json");
     core_error "Required" (fileOnly "a/wrong.json");
     core_error "Expected string"
       (mkProps (Some "a/wrong.json") (Some 2) (Some 8) (Some 2) (Some 9));
     core_setFailed "Validation failed for 2 file(s)!"].
Proof. vm_compute. reflexivity. Qed.

Example demo_checkEvents_unreadable :
  trace (snd (Task.checkEvents (H := Demo.withDraft) "a" initial))
  = [core_info "Validated event: a/b.json";
     core_error "Unexpected error: ENOENT" noProperties;
     core_setFailed "Validation failed for 1 file(s)!"].
Proof. vm_compute. reflexivity. Qed.

(** ** The one call of [core.setFailed] *)

Section OutcomeFacts.

Context {H : Host}.

Lemma ends_with_verdict (tr : list Effect) n :
  failed tr = false ->
  exists tr' rest,
    tr ++ [verdict n] = tr' ++ rest
    /\ failed tr' = false
    /\ (rest = [] \/ exists m, rest = [core_setFailed m]).
Proof.
  intros Htr. unfold verdict. destruct (n >? 0).
  - exists tr. eexists. split; [reflexivity|]. split; [exact Htr|]. right. eauto.
  - exists (tr ++ [core_info "Complete"]), []. rewrite app_nil_r.
    split; [reflexivity|]. split; [|now left].
    now rewrite failed_app, Htr.
Qed.

Lemma ends_with_catch (tr : list Effect) e :
  failed tr = false ->
  exists tr' rest,
    tr ++ match e with
          | ErrorObject m => [core_setFailed m]
          | NonError _ => []
          end = tr' ++ rest
    /\ failed tr' = false
    /\ (rest = [] \/ exists m, rest = [core_setFailed m]).
Proof.
  intros Htr. exists tr. eexists. split; [reflexivity|]. split; [exact Htr|].
  destruct e; [right; eauto|now left].
Qed.

End OutcomeFacts.

(** Up to the moment [run] resolves, in both revisions it calls
    [core.setFailed] at most once, and last. *)
Theorem run_setFailed_once_and_last {H : Host} (s : RunState H) :
  (exists tr rest,
      trace (snd (Action.run s)) = trace s ++ tr ++ rest
      /\ failed tr = false
      /\ (rest = [] \/ exists m, rest = [core_setFailed m]))
  /\ (exists tr rest,
        trace (snd (Main.run s)) = trace s ++ tr ++ rest
        /\ failed tr = false
        /\ (rest = [] \/ exists m, rest = [core_setFailed m])).
Proof.
  split.
  - unfold Action.run, topLevel, tryCatch.
    destruct (Action.body s) as [[e|[]] s1] eqn:E.
    + destruct (Action_body_throws s e s1 E) as (tr & Etr & F).
      destruct (ends_with_catch tr e (notSetFailed_not_failed _ F))
        as (tr' & rest & E' & Hq & Hrest).
      exists tr', rest. split; [|now split].
      rewrite <- E', app_assoc, <- Etr. now destruct e; cbn; rewrite ?app_nil_r.
    + apply Action_body_returns in E.
      destruct E as (files & s2 & ctx & _ & Hawait & _ & ->).
      apply awaitAll_ordinary in Hawait;
        [|intros d; apply emits_Action_startTask;
          auto using ordinary_info, ordinary_listing].
      destruct Hawait as (tr & Etr & F). cbn [snd trace].
      match goal with
      | |- context [trace s2 ++ [?a; ?b; ?c; verdict ?n]] =>
          destruct (ends_with_verdict
                      ([core_info "@deniz-blue/action-events-repo is running";
                        core_info ("Found "
                                   ++ showZ (Z.of_nat (List.length files))
                                   ++ " events.")%string]
                       ++ tr ++ [a; b; c]) n)
            as (tr' & rest & E' & Hq & Hrest)
      end.
      { rewrite !failed_app, (ordinary_not_failed _ F). reflexivity. }
      exists tr', rest. split; [|now split].
      rewrite <- E', Etr. cbn [opened trace]. rewrite <- !app_assoc.
      reflexivity.
  - unfold Main.run, topLevel, tryCatch.
    destruct (Main.body s) as [[e|[]] s1] eqn:E.
    + destruct (Main_body_throws s e s1 E) as (tr & Etr & F).
      destruct (ends_with_catch tr e (notSetFailed_not_failed _ F))
        as (tr' & rest & E' & Hq & Hrest).
      exists tr', rest. split; [|now split].
      rewrite <- E', app_assoc, <- Etr. now destruct e; cbn; rewrite ?app_nil_r.
    + apply Main_body_returns in E.
      destruct E as (files & s2 & _ & Hawait & ->).
      apply awaitAll_ordinary in Hawait;
        [|intros d; apply emits_Main_startTask;
          auto using ordinary_info, ordinary_listing].
      destruct Hawait as (tr & Etr & F). cbn [snd trace].
      destruct (ends_with_verdict
                  ([core_info "@deniz-blue/action-events-repo is running";
                    core_info ("Found "
                               ++ showZ (Z.of_nat (List.length files))
                               ++ " events.")%string]
                   ++ tr) (errorCount s2))
        as (tr' & rest & E' & Hq & Hrest).
      { rewrite !failed_app, (ordinary_not_failed _ F). reflexivity. }
      exists tr', rest. split; [|now split].
      rewrite <- E', Etr. cbn [opened trace]. rewrite <- !app_assoc.
      reflexivity.
Qed.

Lemma errorCount_counts_failing_files_witness :
  errorCount (snd (Action.body (H := Demo.plain) initial)) = 2.
Proof.
  apply (errorCount_counts_failing_files (H := Demo.plain) Demo.entries
           (snd (Action.body (H := Demo.plain) initial))).
  - reflexivity.
  - intros l. apply Permutation_sym, Permutation_rev.
  - vm_compute. reflexivity.
Defined.

(** ** The outcome once the tasks have settled *)

Section SettledFacts.

Context {H : Host}.






End SettledFacts.




(** ** The whole process, the continuations left behind included *)

Section ProcessFacts.

Context {H : Host}.

Lemma emits_weaken {A} (P Q : Effect -> Prop) (m : M H A) :
  (forall e, P e -> Q e) -> emits P m -> emits Q m.
Proof.
  intros HPQ Hm s. destruct (Hm s) as (tr & E & F). exists tr.
  split; [exact E|]. revert F. now apply Forall_impl.
Qed.

Lemma emits_forEach_in {A} (P : Effect -> Prop) (xs : list A)
    (f : A -> M H unit) :
  (forall x, In x xs -> emits P (f x)) -> emits P (forEach xs f).
Proof.
  induction xs as [|x xs IH]; intros Hf; cbn [forEach].
  - apply emits_ret.
  - apply emits_bind; [apply Hf; now left|intros _].
    apply IH. intros y Hy. apply Hf. now right.
Qed.

Lemma emits_bind_call {A B} (P : Effect -> Prop) (a : A) (k : A -> M H B) :
  emits P (k a) -> emits P (bind (call (inr a)) k).
Proof. intros Hk s. exact (Hk s). Qed.

Lemma resumeAll_trace (P : Effect -> Prop) ps (s : RunState H) :
  (forall p, In p ps -> emits (H := H) P (resumeTask p)) ->
  exists tr, trace (resumeAll ps s) = trace s ++ tr /\ Forall P tr.
Proof.
  revert s. induction ps as [|p ps IH]; intros s Hp; cbn [resumeAll].
  - exists []. now rewrite app_nil_r.
  - destruct (Hp p (or_introl eq_refl) s) as (tr1 & E1 & F1).
    destruct (IH (snd (resumeTask p s)) (fun q Hq => Hp q (or_intror Hq)))
      as (tr2 & E2 & F2).
    exists (tr1 ++ tr2). rewrite E2, E1, app_assoc. split; [reflexivity|].
    now apply Forall_app.
Qed.

Lemma unsettled_incl ps (s : RunState H) p :
  In p (unsettled ps s) -> In p ps.
Proof.
  revert s. induction ps as [|q ps IH]; intros s; cbn [unsettled];
    [intros []|].
  destruct (resumeTask q s) as [[e|a] s1]; intros Hin; right; eauto.
Qed.

Lemma leftBehind_incl startTask files (s : RunState H) p :
  In p (leftBehind startTask files s) ->
  In p (settleOrder H (snd (fst (startAll startTask files s)))).
Proof.
  unfold leftBehind.
  destruct (startAll startTask files s) as [[rej pend] s1]. cbn [fst snd].
  destruct rej; [apply unsettled_incl|auto].
Qed.

(** When the tasks settle, nothing is left behind. *)
Lemma leftBehind_settled startTask files (s s2 : RunState H) :
  awaitAll startTask files s = (inr tt, s2) ->
  leftBehind startTask files s = [].
Proof.
  unfold awaitAll, leftBehind.
  destruct (startAll startTask files s) as [[rej pend] s1].
  destruct rej; [|discriminate].
  generalize (settleOrder H pend). intros ps. revert s1.
  induction ps as [|p ps IH]; intros s1; cbn [forEach unsettled];
    [reflexivity|].
  unfold bind. destruct (resumeTask p s1) as [[e|a] s3]; [discriminate|].
  apply IH.
Qed.

(** What the continuation of a read reports is about its path. *)
Lemma resumeTask_reports path :
  emits (H := H)
    (fun e => match e with
              | core_error _ p =>
                  file p = Some path /\ In e (diagnosticsFor H path)
              | core_info _ => True
              | _ => False
              end)
    (resumeTask path).
Proof.
  intros s. unfold diagnosticsFor.
  destruct (readFile H path) as [e|content] eqn:Hr.
  { rewrite (resumeTask_unreadable _ _ _ Hr). exists []. cbn.
    now rewrite app_nil_r. }
  rewrite (resumeTask_read _ _ _ Hr).
  destruct (JSON_parse H content) as [j|] eqn:Hj.
  - destruct (safeParse H j) as [data|issues] eqn:Hv.
    + rewrite (validateContent_success _ _ _ _ _ Hj Hv). cbn [snd trace].
      eexists. split; [reflexivity|]. now repeat constructor.
    + rewrite (validateContent_schema_failure _ _ _ _ _ Hj Hv).
      destruct (parseTree H content) as [tree|] eqn:Hp.
      * rewrite (annotateIssues_tree _ _ _ _ _ Hp). cbn [snd trace].
        eexists. split; [reflexivity|].
        apply Forall_forall. intros e He.
        pose proof He as He'. apply in_map_iff in He'.
        destruct He' as (i & <- & _). split; [reflexivity|exact He].
      * rewrite (annotateIssues_null _ _ _ _ Hp). cbn [snd trace].
        exists []. now rewrite app_nil_r.
  - rewrite (validateContent_parse_failure _ _ _ Hj). cbn [snd trace].
    eexists. split; [reflexivity|]. repeat constructor.
Qed.

End ProcessFacts.

Section ProcessAbout.

Context {H : Host}.

Variable startTask : Dirent -> M H (option string).
Variable aw : Dirent -> bool.
Variable files : list Dirent.

Hypothesis startTask_cases : forall d (s : RunState H),
  errorCount (snd (startTask d s)) = errorCount s
  /\ events (snd (startTask d s)) = events s
  /\ (aw d = true -> startTask d s = (inr (Some (pathOf H d)), s))
  /\ (aw d = false -> forall p, fst (startTask d s) <> inr (Some p)).

Hypothesis settles_once : forall l, Permutation (settleOrder H l) l.

Hypothesis startTask_about :
  forall d, emits (aboutEntry H aw files) (startTask d).

Lemma resumeTask_about p :
  In p (map (pathOf H) (filter aw files)) ->
  emits (H := H) (aboutEntry H aw files) (resumeTask p).
Proof.
  intros Hin. apply in_map_iff in Hin. destruct Hin as (d & <- & Hd).
  apply filter_In in Hd. destruct Hd as [Hd Haw].
  refine (emits_weaken _ _ _ _ (resumeTask_reports (pathOf H d))).
  intros [m|m p|m|path data]; cbn [aboutEntry]; auto.
  intros [Hf Hdiag]. now exists d.
Qed.

Lemma awaitAll_about : emits (aboutEntry H aw files) (awaitAll startTask files).
Proof.
  intros s. unfold awaitAll.
  destruct (startAll_trace _ startTask files startTask_about s)
    as (tr1 & E1 & F1).
  destruct (startAll_awaits startTask aw startTask_cases files s)
    as (_ & _ & Hpend).
  destruct (startAll startTask files s) as [[rej pend] s1].
  cbn [fst snd] in E1, Hpend.
  destruct rej as [|e rej]; cbn [snd]; [|now exists tr1].
  assert (Hall : emits (H := H) (aboutEntry H aw files)
                   (forEach (settleOrder H pend) resumeTask)).
  { apply emits_forEach_in. intros p Hp. apply resumeTask_about.
    rewrite <- Hpend. exact (Permutation_in _ (settles_once pend) Hp). }
  destruct (Hall s1) as (tr2 & E2 & F2).
  exists (tr1 ++ tr2). rewrite E2, E1, app_assoc. split; [reflexivity|].
  now apply Forall_app.
Qed.

Lemma leftBehind_about (s s0 : RunState H) :
  exists tr,
    trace (resumeAll (leftBehind startTask files s) s0) = trace s0 ++ tr
    /\ Forall (aboutEntry H aw files) tr.
Proof.
  apply resumeAll_trace. intros p Hp. apply resumeTask_about.
  apply leftBehind_incl in Hp.
  destruct (startAll_awaits startTask aw startTask_cases files s)
    as (_ & _ & Hpend).
  rewrite <- Hpend. exact (Permutation_in _ (settles_once _) Hp).
Qed.

End ProcessAbout.

(** X11: every diagnostic of the process of [run], in both revisions and
    the continuations left behind included, is about an awaited entry of the
    walk: it names the path of that entry as its file, and it is one of the
    diagnostics that the content of that file gives. *)
Theorem diagnostics_about_their_file {H : Host} files (s : RunState H) :
  globSyncDirents H (eventsPath H) = inr files ->
  (forall l, Permutation (settleOrder H l) l) ->
  (exists tr,
      trace (wholeProcess Action.run Action.startTask s) = trace s ++ tr
      /\ Forall (aboutEntry H awaited files) tr)
  /\ (exists tr,
        trace (wholeProcess Main.run Main.startTask s) = trace s ++ tr
        /\ Forall (aboutEntry H isFile files) tr).
Proof.
  intros Hglob Hperm. unfold wholeProcess. rewrite Hglob. split.
  - set (P := aboutEntry H awaited files).
    assert (Hi : forall m, P (core_info m)) by (intros; exact I).
    assert (Hw : forall p d, P (fs_writeFileSync p d)) by (intros; exact I).
    assert (Hf : forall m, P (core_setFailed m)) by (intros; exact I).
    assert (Hst : forall d, emits (H := H) P (Action.startTask d)).
    { intros d. unfold Action.startTask.
      destruct (startsWith (name d) "."); [apply emits_ret|].
      destruct (negb (isFile d)); [|apply emits_ret].
      apply emits_bind; [|intros _; apply emits_ret].
      destruct (isDirectory d); [|apply emits_ret].
      apply emits_bind; [apply emits_call|intros names].
      apply emits_bind; [apply emits_writeFile, Hw|intros _].
      apply emits_emit, Hi. }
    assert (Hrun : emits (H := H) P Action.run).
    { unfold Action.run, topLevel. apply emits_tryCatch.
      - unfold Action.body.
        apply emits_bind; [apply emits_emit, Hi|intros _].
        rewrite Hglob. apply emits_bind_call.
        apply emits_bind; [apply emits_emit, Hi|intros _].
        apply emits_bind;
          [exact (awaitAll_about Action.startTask awaited files
                    Action_startTask_awaits Hperm Hst)|intros _].
        apply emits_bind; [apply emits_call|intros ctx].
        apply emits_bind; [apply emits_emit, Hi|intros _].
        apply emits_bind; [apply emits_emit, Hi|intros _].
        apply emits_bind; [now apply emits_silent|intros evs].
        apply emits_bind; [apply emits_writeFile, Hw|intros _].
        apply emits_bind; [now apply emits_silent|intros n].
        destruct (n >? 0); apply emits_emit; auto.
      - intros [m|v]; [apply emits_emit, Hf|apply emits_ret]. }
    destruct (Hrun s) as (tr1 & E1 & F1).
    destruct (leftBehind_about Action.startTask awaited files
                Action_startTask_awaits Hperm (opened s files)
                (snd (Action.run s))) as (tr2 & E2 & F2).
    exists (tr1 ++ tr2). rewrite E2, E1, app_assoc. split; [reflexivity|].
    now apply Forall_app.
  - set (P := aboutEntry H isFile files).
    assert (Hi : forall m, P (core_info m)) by (intros; exact I).
    assert (Hw : forall p d, P (fs_writeFileSync p d)) by (intros; exact I).
    assert (Hf : forall m, P (core_setFailed m)) by (intros; exact I).
    assert (Hst : forall d, emits (H := H) P (Main.startTask d)).
    { intros d. unfold Main.startTask.
      destruct (negb (isFile d)); [|apply emits_ret].
      apply emits_bind; [|intros _; apply emits_ret].
      destruct (isDirectory d); [|apply emits_ret].
      apply emits_bind; [apply emits_call|intros names].
      apply emits_writeFile, Hw. }
    assert (Hrun : emits (H := H) P Main.run).
    { unfold Main.run, topLevel. apply emits_tryCatch.
      - unfold Main.body.
        apply emits_bind; [apply emits_emit, Hi|intros _].
        rewrite Hglob. apply emits_bind_call.
        apply emits_bind; [apply emits_emit, Hi|intros _].
        apply emits_bind;
          [exact (awaitAll_about Main.startTask isFile files
                    Main_startTask_awaits Hperm Hst)|intros _].
        apply emits_bind; [now apply emits_silent|intros n].
        destruct (n >? 0); apply emits_emit; auto.
      - intros [m|v]; [apply emits_emit, Hf|apply emits_ret]. }
    destruct (Hrun s) as (tr1 & E1 & F1).
    destruct (leftBehind_about Main.startTask isFile files
                Main_startTask_awaits Hperm (opened s files)
                (snd (Main.run s))) as (tr2 & E2 & F2).
    exists (tr1 ++ tr2). rewrite E2, E1, app_assoc. split; [reflexivity|].
    now apply Forall_app.
Qed.

Lemma diagnostics_about_their_file_witness :
  exists tr,
    trace (wholeProcess (H := Demo.plain) Action.run Action.startTask initial)
    = trace (H := Demo.plain) initial ++ tr
    /\ Forall (aboutEntry Demo.plain awaited Demo.entries) tr.
Proof.
  apply (diagnostics_about_their_file (H := Demo.plain) Demo.entries initial).
  - reflexivity.
  - intros l. apply Permutation_sym, Permutation_rev.
Defined.



Example demo_unreadable_process :
  trace (wholeProcess (H := Demo.unreadable) Action.run Action.startTask
           initial)
  = [core_info "@deniz-blue/action-events-repo is running";
     core_info "Found 2 events.";
     core_setFailed "ENOENT";
     core_info "Validated event: a/b.json"].
Proof. vm_compute. reflexivity. Qed.

(** X22: in both revisions [core.setFailed] is called at most once in the
    whole process: if it is called, it is the last effect before [run]
    resolves, and the continuations that still run afterwards never call
    it. *)
Theorem setFailed_at_most_once {H : Host} (s : RunState H) :
  (exists tr rest after,
      trace (snd (Action.run s)) = trace s ++ tr ++ rest
      /\ trace (wholeProcess Action.run Action.startTask s)
         = trace s ++ tr ++ rest ++ after
      /\ failed tr = false /\ failed after = false
      /\ (rest = [] \/ exists m, rest = [core_setFailed m]))
  /\ (exists tr rest after,
        trace (snd (Main.run s)) = trace s ++ tr ++ rest
        /\ trace (wholeProcess Main.run Main.startTask s)
           = trace s ++ tr ++ rest ++ after
        /\ failed tr = false /\ failed after = false
        /\ (rest = [] \/ exists m, rest = [core_setFailed m])).
Proof.
  assert (Hafter : forall (run : M H unit) startTask,
             exists after,
               trace (wholeProcess run startTask s)
               = trace (snd (run s)) ++ after
               /\ failed after = false).
  { intros run startTask. unfold wholeProcess.
    destruct (globSyncDirents H (eventsPath H)) as [e|files].
    - exists []. now rewrite app_nil_r.
    - destruct (resumeAll_trace ordinary
                  (leftBehind startTask files (opened s files)) (snd (run s))
                  (fun p _ => emits_resumeTask ordinary ordinary_info
                                ordinary_error p)) as (after & E & F).
      exists after. split; [exact E|]. now apply ordinary_not_failed. }
  destruct (run_setFailed_once_and_last s)
    as [(tr & rest & E & Hq & Hrest) (tr' & rest' & E' & Hq' & Hrest')].
  split.
  - destruct (Hafter Action.run Action.startTask) as (after & Ea & Fa).
    exists tr, rest, after. rewrite Ea, E, <- !app_assoc. now repeat split.
  - destruct (Hafter Main.run Main.startTask) as (after & Ea & Fa).
    exists tr', rest', after. rewrite Ea, E', <- !app_assoc. now repeat split.
Qed.
